(** * robo: an HTTP request multiplexer (mux.go)

    A shallow embedding of the router of package [robo] and the properties
    of its registration and dispatch code.

    Layout of the embedding:
    - Go's [panic] is the [Panic] result of a small state monad [M]; the
      state survives a panic, as it does in Go (nothing is rolled back);
    - a [*queue] is an address in a heap of queue objects, because the
      request handed to a handler carries the pointer and every call of
      [Next] advances that same object;
    - a [*Parameters] chain is a finite tree value: the only write to a
      [parent] field happens on the scope just returned by the matcher,
      before any handler sees it;
    - the interface call [h.ServeRoboHTTP(w, r)] is a parameter [invoke] of
      the dispatch code, which is then closed by an interpreter of handler
      scripts that runs on fuel. *)

From Stdlib Require Import String List Arith Lia.
From stdpp Require Import base option list strings gmap.

Local Open Scope string_scope.
Local Open Scope list_scope.

(** ** Results and the state monad *)

(** How a call ends: it returns, it panics with a message, or (only in the
    fuel-bounded interpreter of handler scripts) it is cut off. *)
Inductive result (A : Type) : Type :=
| Return (a : A)
| Panic (msg : string)
| Timeout.

Arguments Return {A} a.
Arguments Panic {A} msg.
Arguments Timeout {A}.

(** A computation over a mutable state [S]. *)
Definition M (S A : Type) : Type := S -> result A * S.

#[global] Instance M_ret (S : Type) : MRet (M S) :=
  fun A a s => (Return a, s).

#[global] Instance M_bind (S : Type) : MBind (M S) :=
  fun A B f c s =>
    match c s with
    | (Return a, s') => f a s'
    | (Panic msg, s') => (Panic msg, s')
    | (Timeout, s') => (Timeout, s')
    end.

Definition panic {S A : Type} (msg : string) : M S A :=
  fun s => (Panic msg, s).

Definition timeout {S A : Type} : M S A :=
  fun s => (Timeout, s).

Definition modify {S : Type} (f : S -> S) : M S unit :=
  fun s => (Return tt, f s).

Definition lift {S A : Type} (r : result A) : M S A :=
  fun s => (r, s).

(** The messages of the run-time panics the router's own statements can
    raise. *)
Definition nil_dereference : string :=
  "invalid memory address or nil pointer dereference".
Definition out_of_range : string :=
  "slice bounds out of range".

(** ** Parameters *)

(** [type Parameters struct { parent *Parameters; values map[string]string }].
    A nil pointer is [None]; a nil map is [None]. *)
#[warnings="-register-all"]
Inductive Parameters : Type :=
  mkParameters { parent : option Parameters;
                 values : option (gmap string string) }.

(** [p.values[key]]: reading a Go map gives the zero value, the empty
    string, for a key that is not there. *)
Definition index (m : gmap string string) (key : string) : string :=
  default "" (m !! key).

(** [func (p *Parameters) set(key, value string)] *)
Definition set (key value : string) (p : Parameters) : Parameters :=
  match values p with
  | None => mkParameters (parent p) (Some (<[key := value]> ∅))
  | Some m => mkParameters (parent p) (Some (<[key := value]> m))
  end.

(** [func (p *Parameters) Get(key string) string] *)
Fixpoint Get (p : Parameters) (key : string) : string :=
  match p with
  | mkParameters par vals =>
      let up := match par with
                | Some p' => Get p' key
                | None => ""
                end in
      match vals with
      | Some m => let v := index m key in
                  if decide (v = "") then up else v
      | None => up
      end
  end.

(** What a scope binds by itself, and the scopes of a chain from the
    innermost one outwards: the vocabulary in which the lookup is
    specified. *)
Definition own (p : Parameters) (key : string) : string :=
  match values p with
  | Some m => index m key
  | None => ""
  end.

Fixpoint chain (p : Parameters) : list Parameters :=
  match p with
  | mkParameters par _ =>
      p :: match par with
           | Some p' => chain p'
           | None => []
           end
  end.

(** ** Handlers *)

(** User code is named by a number: a function value or an object with
    methods is a reference to code, and the router never looks inside. *)
Definition code := nat.

(** Values of the interface type [http.Handler]. *)
Inductive http_Handler : Type :=
| http_Obj (o : code)            (* an object with a ServeHTTP method *)
| http_HandlerFunc (f : code).   (* http.HandlerFunc(f) *)

(** Values of the interface type [robo.Handler]. *)
Inductive Handler : Type :=
| Obj (o : code)                 (* an object with a ServeRoboHTTP method *)
| HandlerFunc (f : code)         (* HandlerFunc(f) *)
| httpHandler (h : http_Handler). (* httpHandler{h} *)

(** An argument of type [interface{}], as the type switch of [Add] tells
    values apart.  The cases are tried in order, so a value that implements
    both interfaces is an [IsHandler]. *)
Inductive any : Type :=
| IsHandler (h : Handler)            (* case Handler *)
| IsFunc (f : code)                  (* case func(w ResponseWriter, r *Request) *)
| IsHttpHandler (h : http_Handler)   (* case http.Handler *)
| IsHttpFunc (f : code)              (* case func(w http.ResponseWriter, r *http.Request) *)
| Other (what : string).             (* default: anything else, nil included *)

(** ** Routes and the Mux *)

Record route : Type := mkRoute {
  method : string;
  pattern : string;
  handlers : list Handler
}.

(** [func newRoute(method, pattern string, handlers []Handler) route]:
    the body builds the struct and returns it; it has no other statement. *)
Definition newRoute (method pattern : string) (handlers : list Handler) : route :=
  {| method := method; pattern := pattern; handlers := handlers |}.

(** [func (r *route) Check(method, path string) (bool, *Parameters)]:
    the body is [return false, nil]. *)
Definition Check (r : route) (method path : string) : bool * option Parameters :=
  (false, None).

Record Mux : Type := mkMux { routes : list route }.

(** The zero value of [Mux]. *)
Definition zero : Mux := {| routes := [] |}.

(** The loop of [Add] over its arguments, with the slice [clean] built so
    far. *)
Fixpoint validate (handlers : list any) (clean : list Handler) : result (list Handler) :=
  match handlers with
  | [] => Return clean
  | h :: rest =>
      match h with
      | IsHandler h => validate rest (clean ++ [h])
      | IsFunc f => validate rest (clean ++ [HandlerFunc f])
      | IsHttpHandler h => validate rest (clean ++ [httpHandler h])
      | IsHttpFunc f => validate rest (clean ++ [httpHandler (http_HandlerFunc f)])
      | Other _ => Panic "not a valid handler"
      end
  end.

(** [func (m *Mux) Add(method, pattern string, handlers ...interface{})] *)
Definition Add (method pattern : string) (handlers : list any) : M Mux unit :=
  if decide (length handlers = 0) then panic "no handlers provided"
  else
    clean ← lift (validate handlers []);
    modify (fun m => {| routes := routes m ++ [newRoute method pattern clean] |}).

(** The Muxes a program can build: the zero value, and what a call of [Add]
    leaves behind, whether it returned or panicked. *)
Inductive built : Mux -> Prop :=
| built_zero : built zero
| built_Add (m : Mux) (method pattern : string) (hs : list any) :
    built m -> built (snd (Add method pattern hs m)).

(** ** Requests, queues and the state of a dispatch *)

(** The fields of [*http.Request] the router reads: [Method] and
    [URL.Path]. *)
Record http_Request : Type := mkHttpRequest {
  Method : string;
  URL_Path : string
}.

(** A [ResponseWriter] is an object of the transport layer; the router
    passes it on and never calls it.  It is known by its identity. *)
Definition ResponseWriter := nat.

(** The address of a queue object. *)
Definition qref := nat.

(** [type Request struct { *http.Request; Params *Parameters; queue *queue }] *)
Record Request : Type := mkRequest {
  embedded : http_Request;
  Params : option Parameters;
  queue_of : option qref
}.

(** [type queue struct { handlers []Handler; routes []route;
                         parent *Parameters; self *Parameters }] *)
Record queue : Type := mkQueue {
  q_handlers : list Handler;
  q_routes : list route;
  q_parent : option Parameters;
  q_self : option Parameters
}.

(** The state a dispatch runs in.  [heap] holds the queue objects.  The
    other three fields are logs of what happened: [invoked] the interface
    calls [h.ServeRoboHTTP(w, r)] made by the router, [examined] the
    calls of the matcher, [written] what handlers wrote to response
    writers.  Each log grows at its end. *)
Record State : Type := mkState {
  heap : list queue;
  invoked : list (Handler * ResponseWriter * Request);
  examined : list (route * string * string);
  written : list (ResponseWriter * string)
}.

Definition initial : State :=
  {| heap := []; invoked := []; examined := []; written := [] |}.

(** [*q], [*q = c] and [&queue{...}] *)
Definition load (q : qref) : M State queue :=
  fun s => match heap s !! q with
           | Some c => (Return c, s)
           | None => (Panic nil_dereference, s)
           end.

Definition store (q : qref) (c : queue) : M State unit :=
  modify (fun s => {| heap := <[q := c]> (heap s); invoked := invoked s;
                      examined := examined s; written := written s |}).

Definition alloc (c : queue) : M State qref :=
  fun s => (Return (length (heap s)),
            {| heap := heap s ++ [c]; invoked := invoked s;
               examined := examined s; written := written s |}).

Definition log_invoked (h : Handler) (w : ResponseWriter) (r : Request) : M State unit :=
  modify (fun s => {| heap := heap s; invoked := invoked s ++ [(h, w, r)];
                      examined := examined s; written := written s |}).

Definition log_examined (r : route) (method path : string) : M State unit :=
  modify (fun s => {| heap := heap s; invoked := invoked s;
                      examined := examined s ++ [(r, method, path)];
                      written := written s |}).

Definition log_written (w : ResponseWriter) (data : string) : M State unit :=
  modify (fun s => {| heap := heap s; invoked := invoked s;
                      examined := examined s;
                      written := written s ++ [(w, data)] |}).

(** Assignments to the fields of [*q]. *)
Definition set_handlers (q : qref) (hs : list Handler) : M State unit :=
  c ← load q;
  store q {| q_handlers := hs; q_routes := q_routes c;
             q_parent := q_parent c; q_self := q_self c |}.

Definition set_routes (q : qref) (rs : list route) : M State unit :=
  c ← load q;
  store q {| q_handlers := q_handlers c; q_routes := rs;
             q_parent := q_parent c; q_self := q_self c |}.

Definition set_self (q : qref) (p : option Parameters) : M State unit :=
  c ← load q;
  store q {| q_handlers := q_handlers c; q_routes := q_routes c;
             q_parent := q_parent c; q_self := p |}.

(** [q.self.parent = q.parent] *)
Definition set_self_parent (q : qref) : M State unit :=
  c ← load q;
  match q_self c with
  | None => panic nil_dereference
  | Some p => set_self q (Some (mkParameters (q_parent c) (values p)))
  end.

(** ** Dispatch *)

Section Dispatch.

(** The matcher, which is the method [Check] of a route, and the method
    the interface value [h] answers [h.ServeRoboHTTP(w, r)] with. *)
Variable matcher : route -> string -> string -> bool * option Parameters.
Variable invoke : Handler -> ResponseWriter -> Request -> M State unit.

(** The call [h.ServeRoboHTTP(w, &Request{hr, q.self, q})]. *)
Definition call (h : Handler) (q : qref) (w : ResponseWriter) (hr : http_Request) : M State unit :=
  c ← load q;
  let r := {| embedded := hr; Params := q_self c; queue_of := Some q |} in
  log_invoked h w r;;
  invoke h w r.

(** The loop [for len(q.routes) > 0 { ... }] of [serveNext]; [rs] is the
    value of [q.routes] when the iteration starts. *)
Fixpoint scan (rs : list route) (q : qref) (w : ResponseWriter) (hr : http_Request) : M State unit :=
  match rs with
  | [] => mret tt
  | r :: rest =>
      set_routes q rest;;
      log_examined r (Method hr) (URL_Path hr);;
      let '(ok, params) := matcher r (Method hr) (URL_Path hr) in
      if negb ok then scan rest q w hr
      else
        match handlers r with
        | [] => panic out_of_range
        | h0 :: tail =>
            set_handlers q tail;;
            set_self q params;;
            set_self_parent q;;
            call h0 q w hr
        end
  end.

(** [func (q *queue) serveNext(w ResponseWriter, hr *http.Request)] *)
Definition serveNext (q : qref) (w : ResponseWriter) (hr : http_Request) : M State unit :=
  c ← load q;
  match q_handlers c with
  | h :: rest =>
      set_handlers q rest;;
      call h q w hr
  | [] => scan (q_routes c) q w hr
  end.

(** [func (r *Request) Next(w ResponseWriter)] *)
Definition Next (r : Request) (w : ResponseWriter) : M State unit :=
  match queue_of r with
  | None => panic nil_dereference
  | Some q => serveNext q w (embedded r)
  end.

(** [func (m *Mux) ServeRoboHTTP(w ResponseWriter, r *Request)] *)
Definition ServeRoboHTTP (m : Mux) (w : ResponseWriter) (r : Request) : M State unit :=
  q ← alloc {| q_handlers := []; q_routes := routes m;
               q_parent := Params r; q_self := None |};
  serveNext q w (embedded r).

(** [func (m *Mux) ServeHTTP(w http.ResponseWriter, r *http.Request)] *)
Definition ServeHTTP (m : Mux) (w : ResponseWriter) (hr : http_Request) : M State unit :=
  ServeRoboHTTP m w {| embedded := hr; Params := None; queue_of := None |}.

End Dispatch.

(** ** Handler code *)

(** What the code of a handler does, as far as the router and the response
    writer can tell: it writes, it reads a URL parameter and writes it, it
    yields to the rest of the queue with [r.Next(w)].  A handler can also
    be a whole [*Mux]. *)
Inductive Action : Type :=
| Write (data : string)        (* w.Write(data) *)
| WriteParam (key : string)    (* w.Write(r.Params.Get(key)) *)
| CallNext.                    (* r.Next(w) *)

Inductive Body : Type :=
| Script (acts : list Action)
| Nested (m : Mux).

(** The code behind the numbers: of functions and objects of the [robo]
    shapes, and of those of the [net/http] shapes, which see neither the
    parameters nor the queue and can only write. *)
Record Program : Type := mkProgram {
  robo_code : code -> Body;
  http_code : code -> list string
}.

Section Run.

Variable matcher : route -> string -> string -> bool * option Parameters.
Variable prog : Program.

Fixpoint script (next : Request -> ResponseWriter -> M State unit)
    (acts : list Action) (w : ResponseWriter) (r : Request) : M State unit :=
  match acts with
  | [] => mret tt
  | Write data :: rest =>
      log_written w data;;
      script next rest w r
  | WriteParam key :: rest =>
      match Params r with
      | None => panic nil_dereference
      | Some p =>
          log_written w (Get p key);;
          script next rest w r
      end
  | CallNext :: rest =>
      next r w;;
      script next rest w r
  end.

Fixpoint http_script (chunks : list string) (w : ResponseWriter) : M State unit :=
  match chunks with
  | [] => mret tt
  | data :: rest =>
      log_written w data;;
      http_script rest w
  end.

(** [func (h httpHandler) ServeRoboHTTP(w ResponseWriter, r *Request)]:
    [h.h.ServeHTTP(w, r.Request)]. *)
Definition httpHandler_ServeRoboHTTP (h : http_Handler) (w : ResponseWriter) (r : Request) : M State unit :=
  match h with
  | http_Obj o => http_script (http_code prog o) w
  | http_HandlerFunc f => http_script (http_code prog f) w
  end.

(** The method [ServeRoboHTTP] of every handler value, by the dynamic type
    of the value.  [func (h HandlerFunc) ServeRoboHTTP] is [h(w, r)].  The
    calls nest, so the interpreter runs on fuel. *)
Fixpoint run (fuel : nat) (h : Handler) (w : ResponseWriter) (r : Request) : M State unit :=
  match fuel with
  | 0 => timeout
  | S n =>
      match h with
      | Obj o | HandlerFunc o =>
          match robo_code prog o with
          | Script acts => script (Next matcher (run n)) acts w r
          | Nested m => ServeRoboHTTP matcher (run n) m w r
          end
      | httpHandler h' => httpHandler_ServeRoboHTTP h' w r
      end
  end.

(** A request as the transport layer hands it to the outermost Mux. *)
Definition serve (fuel : nat) (m : Mux) (w : ResponseWriter) (hr : http_Request) : M State unit :=
  ServeHTTP matcher (run fuel) m w hr.

End Run.

(** ** A stand-in matcher and a sample program

    [Check] never reports a match, so the branch of [serveNext] that
    handles one needs another matcher to be exercised.  [literal] matches
    a request whose method and path equal the route's method and pattern,
    with a fresh scope that binds the pattern under the key [path]. *)
Definition literal (r : route) (verb path : string) : bool * option Parameters :=
  if decide (verb = method r /\ path = pattern r)
  then (true, Some (set "path" path (mkParameters None None)))
  else (false, None).

(** Handler 1 writes and yields, handler 2 writes the parameter [path],
    handler 3 writes and does not yield, handler 4 yields twice, handler 5
    is a Mux of its own; every [net/http] handler writes one chunk. *)
Definition inner_site : Mux :=
  snd (Add "GET" "/a" [IsFunc 2] zero).

Definition sample : Program :=
  {| robo_code := fun o =>
       match o with
       | 1 => Script [Write "one"; CallNext; Write "back"]
       | 2 => Script [WriteParam "path"]
       | 3 => Script [Write "three"]
       | 4 => Script [CallNext; CallNext]
       | 5 => Nested inner_site
       | _ => Script []
       end;
     http_code := fun _ => ["plain"] |}.

Definition GET (path : string) : http_Request :=
  {| Method := "GET"; URL_Path := path |}.

(** The final state of a computation, and how it ended. *)
Definition outcome {S A : Type} (x : result A * S) : result A := fst x.
Definition final {S A : Type} (x : result A * S) : S := snd x.

(** ** Vocabulary of the statements *)

(** The handler the type switch of [Add] turns one argument into, if it
    takes the argument at all. *)
Definition adapt (a : any) : option Handler :=
  match a with
  | IsHandler h => Some h
  | IsFunc f => Some (HandlerFunc f)
  | IsHttpHandler h => Some (httpHandler h)
  | IsHttpFunc f => Some (httpHandler (http_HandlerFunc f))
  | Other _ => None
  end.

Definition accepted (a : any) : bool :=
  match a with
  | Other _ => false
  | _ => true
  end.

(** An outer scope binding [id] and [lang], an inner one binding [id]
    again and [lang] to the empty string. *)
Definition outer_scope : Parameters :=
  set "lang" "en" (set "id" "7" (mkParameters None None)).
Definition inner_scope : Parameters :=
  set "lang" "" (set "id" "42" (mkParameters (Some outer_scope) None)).

(** A Mux with three routes, and states in which one queue over its
    routes is under way: before the first step, and inside the first
    route with two handlers left. *)
Definition site : Mux :=
  final (Add "GET" "/b" [IsFunc 3]
    (final (Add "GET" "/a" [IsFunc 2]
      (final (Add "GET" "/a" [IsFunc 1; IsHttpFunc 7] zero))))).

Definition at_start : State :=
  {| heap := [{| q_handlers := []; q_routes := routes site;
                 q_parent := Some outer_scope; q_self := None |}];
     invoked := []; examined := []; written := [] |}.

Definition under_way : State :=
  {| heap := [{| q_handlers := [HandlerFunc 3; HandlerFunc 1];
                 q_routes := routes site;
                 q_parent := None; q_self := Some inner_scope |}];
     invoked := []; examined := []; written := [] |}.

(** A Mux that no sequence of calls of [Add] produces: its route has no
    handler. *)
Definition hollow : Mux :=
  {| routes := [{| method := "GET"; pattern := "/a"; handlers := [] |}] |}.

(** Handlers that write one chunk and return. *)
Definition writer (h : Handler) (w : ResponseWriter) (r : Request) : M State unit :=
  log_written w "served".

(** A queue with nothing left. *)
Definition spent : State :=
  {| heap := [{| q_handlers := []; q_routes := [];
                 q_parent := None; q_self := Some inner_scope |}];
     invoked := []; examined := []; written := [] |}.

(** Two routes for the same request, as in a chain of middleware; a
    route whose handler yields twice; a route whose handler is a Mux. *)
Definition chained : Mux :=
  final (Add "GET" "/a" [IsFunc 2] (final (Add "GET" "/a" [IsFunc 1] zero))).

Definition eager : Mux :=
  final (Add "GET" "/a" [IsFunc 3]
    (final (Add "GET" "/a" [IsFunc 1]
      (final (Add "GET" "/a" [IsFunc 4] zero))))).

Definition nesting : Mux :=
  final (Add "GET" "/a" [IsHandler (Obj 5)] zero).

(** Routes that all have a handler; states whose queues hold only such
    routes; programs whose nested Muxes were populated through [Add]. *)
Definition nonempty_routes (rs : list route) : Prop :=
  Forall (fun r => handlers r <> []) rs.

Definition sound_state (st : State) : Prop :=
  Forall (fun c => nonempty_routes (q_routes c)) (heap st).

Definition sound_program (prog : Program) : Prop :=
  forall o m, robo_code prog o = Nested m -> built m.

(** A computation that, from a sound state, does not end in the
    slice-bounds panic, leaves a sound state, and returns a value that
    satisfies [Q] if it returns. *)
Definition in_bounds {A : Type} (c : M State A) (Q : A -> Prop) : Prop :=
  forall s, sound_state s ->
    outcome (c s) <> Panic out_of_range /\
    sound_state (final (c s)) /\
    forall a, outcome (c s) = Return a -> Q a.

(** ** A setup phase

    A registration is the method, the pattern and the handler arguments
    of one call of [Add]; [setup] makes the calls one after the other, as
    a program does before it serves, and stops at the first panic. *)
Definition registration : Type := string * string * list any.

Fixpoint setup (regs : list registration) : M Mux unit :=
  match regs with
  | [] => mret tt
  | (verb, pat, hs) :: rest =>
      Add verb pat hs;;
      setup rest
  end.

(** A registration [Add] accepts, and the route it then stores. *)
Definition acceptable (reg : registration) : Prop :=
  snd reg <> [] /\ Forall (fun a => accepted a = true) (snd reg).

Definition route_of (reg : registration) : route :=
  newRoute (fst (fst reg)) (snd (fst reg)) (omap adapt (snd reg)).

(** The chunks a handler of a [net/http] shape writes. *)
Definition http_chunks (prog : Program) (h : http_Handler) : list string :=
  match h with
  | http_Obj o => http_code prog o
  | http_HandlerFunc f => http_code prog f
  end.

(** A matcher that breaks the promise of the doc comment of [Check]: it
    reports a match and returns no scope. *)
Definition careless (r : route) (verb path : string) : bool * option Parameters :=
  (true, None).

(** ** The order of the calls

    The handlers invoked with a request bound to the queue [q], in the
    order of the calls, read off a stretch of the call log; and the
    handlers a queue can still invoke: those left of the current route,
    then those of the routes left, in order. *)
Definition calls_on (q : qref) (l : list (Handler * ResponseWriter * Request)) : list Handler :=
  map (fun x => fst (fst x)) (filter (fun x => queue_of (snd x) = Some q) l).

Definition pending (c : queue) : list Handler :=
  q_handlers c ++ concat (map handlers (q_routes c)).

(** From [s] to [s'] the call log has grown, every queue of [s] is still
    there, and for each queue the calls made on it since [s], followed by
    what it can still invoke in [s'], are taken in order from what it
    could invoke in [s]. *)
Definition advances (s s' : State) : Prop :=
  exists l, invoked s' = invoked s ++ l /\
    forall q c, heap s !! q = Some c ->
      exists c', heap s' !! q = Some c' /\
                 sublist (calls_on q l ++ pending c') (pending c).

Definition steady {A : Type} (c : M State A) : Prop :=
  forall s, advances s (final (c s)).

(** Programs all of whose handlers are scripts: no handler is a Mux. *)
Definition flat (prog : Program) : Prop :=
  forall o, exists acts, robo_code prog o = Script acts.

(** The sample program without its nested Mux. *)
Definition plain : Program :=
  {| robo_code := fun o =>
       match o with
       | 1 => Script [Write "one"; CallNext; Write "back"]
       | 2 => Script [WriteParam "path"]
       | 3 => Script [Write "three"]
       | 4 => Script [CallNext; CallNext]
       | _ => Script []
       end;
     http_code := fun _ => ["plain"] |}.

(** * Properties *)

(** ** The monad *)

Lemma bind_Return {S A B : Type} (c : M S A) (f : A -> M S B) (s s' : S) (a : A) :
  c s = (Return a, s') -> (c ≫= f) s = f a s'.
Proof. intros H. unfold mbind, M_bind. now rewrite H. Qed.

Lemma bind_modify {S B : Type} (f : S -> S) (k : unit -> M S B) (s : S) :
  (modify f ≫= k) s = k tt (f s).
Proof. reflexivity. Qed.

(** ** Parameter scopes *)

(** Induction along the parent links of a scope. *)
Lemma Parameters_chain_ind (P : Parameters -> Prop) :
  (forall vals, P (mkParameters None vals)) ->
  (forall p vals, P p -> P (mkParameters (Some p) vals)) ->
  forall p, P p.
Proof.
  intros Hroot Hchild. fix IH 1.
  intros [[p'|] vals].
  - apply Hchild, IH.
  - apply Hroot.
Qed.

Lemma Get_unfold (p : Parameters) (key : string) :
  Get p key =
  if decide (own p key = "")
  then match parent p with
       | Some p' => Get p' key
       | None => ""
       end
  else own p key.
Proof.
  destruct p as [par [m|]]; unfold own; simpl.
  - destruct (decide (index m key = "")); reflexivity.
  - reflexivity.
Qed.

Lemma Get_own (p : Parameters) (key : string) :
  own p key <> "" -> Get p key = own p key.
Proof.
  intros H. rewrite Get_unfold. destruct (decide (own p key = "")); congruence.
Qed.

Lemma Get_parent (p p' : Parameters) (key : string) :
  own p key = "" -> parent p = Some p' -> Get p key = Get p' key.
Proof.
  intros H Hp. rewrite Get_unfold, Hp.
  destruct (decide (own p key = "")); congruence.
Qed.

Lemma Get_root (p : Parameters) (key : string) :
  own p key = "" -> parent p = None -> Get p key = "".
Proof.
  intros H Hp. rewrite Get_unfold, Hp.
  destruct (decide (own p key = "")); congruence.
Qed.

Lemma Get_unbound (p : Parameters) (key : string) :
  Forall (fun s => own s key = "") (chain p) -> Get p key = "".
Proof.
  induction p as [vals | p vals IH] using Parameters_chain_ind; intros H.
  - apply Get_root; [| reflexivity].
    now apply Forall_inv in H.
  - simpl in H. inversion H as [| ? ? Hown Hrest]; subst.
    rewrite (Get_parent _ p); auto.
Qed.

(** The value [Get] returns is bound by some scope of the chain, or it
    is the empty string. *)
Lemma Get_from_chain (p : Parameters) (key : string) :
  Get p key = "" \/ Exists (fun s => own s key = Get p key) (chain p).
Proof.
  induction p as [vals | p vals IH] using Parameters_chain_ind.
  - rewrite Get_unfold. simpl parent.
    destruct (decide (own (mkParameters None vals) key = "")); [now left |].
    right. simpl. now constructor.
  - rewrite Get_unfold. simpl parent.
    destruct (decide (own (mkParameters (Some p) vals) key = "")).
    + destruct IH as [IH | IH]; [now left | right].
      simpl. now apply Exists_cons_tl.
    + right. simpl. now constructor.
Qed.

Lemma own_bound (p : Parameters) (m : gmap string string) (key v : string) :
  values p = Some m -> m !! key = Some v -> own p key = v.
Proof. intros Hm Hk. unfold own, index. now rewrite Hm, Hk. Qed.

Lemma own_absent (p : Parameters) (key : string) :
  values p = None \/
  (exists m, values p = Some m /\ (m !! key = None \/ m !! key = Some "")) ->
  own p key = "".
Proof.
  unfold own, index.
  intros [H | [m [H [Hk | Hk]]]]; rewrite H; [reflexivity | |]; now rewrite Hk.
Qed.

(** C5. For every scope and key: [Get] returns the scope's own binding
    when it is present and not empty, whatever the parent binds; when
    the key is absent from the scope or bound to the empty string, [Get]
    gives what the parent scope gives, if there is a parent, and the
    empty string if there is none; and when no scope of the chain binds
    the key to a non-empty string, [Get] returns the empty string. *)
Theorem Get_scope_chain (p : Parameters) (key : string) :
  (forall m v, values p = Some m -> m !! key = Some v -> v <> "" ->
     Get p key = v) /\
  (values p = None \/
   (exists m, values p = Some m /\ (m !! key = None \/ m !! key = Some "")) ->
     match parent p with
     | Some p' => Get p key = Get p' key
     | None => Get p key = ""
     end) /\
  (Forall (fun s => own s key = "") (chain p) -> Get p key = "").
Proof.
  split; [| split].
  - intros m v Hm Hk Hv.
    pose proof (own_bound p m key v Hm Hk) as Hown.
    rewrite Get_own; congruence.
  - intros H. apply own_absent in H.
    destruct (parent p) as [p'|] eqn:Hp.
    + now apply Get_parent.
    + now apply Get_root.
  - apply Get_unbound.
Qed.

Lemma Get_scope_chain_witness :
  Get inner_scope "id" = "42" /\
  Get inner_scope "lang" = Get outer_scope "lang" /\
  Get outer_scope "lang" = "en" /\
  Get inner_scope "page" = "".
Proof.
  destruct (Get_scope_chain inner_scope "id") as [Hown _].
  destruct (Get_scope_chain inner_scope "lang") as [_ [Hup _]].
  destruct (Get_scope_chain outer_scope "lang") as [Hown' _].
  destruct (Get_scope_chain inner_scope "page") as [_ [_ Hnone]].
  split; [| split; [| split]].
  - eapply Hown; [reflexivity | vm_compute; reflexivity | discriminate].
  - apply Hup. right. eexists. split; [reflexivity |]. right. vm_compute. reflexivity.
  - eapply Hown'; [reflexivity | vm_compute; reflexivity | discriminate].
  - apply Hnone. vm_compute. repeat constructor.
Defined.

(** ** Registration *)

Lemma validate_adapt (hs : list any) (clean : list Handler) :
  Forall (fun a => accepted a = true) hs ->
  exists hs', Forall2 (fun a h => adapt a = Some h) hs hs' /\
              validate hs clean = Return (clean ++ hs').
Proof.
  revert clean. induction hs as [| a hs IH]; intros clean Hall.
  - exists []. split; [constructor |]. simpl. now rewrite app_nil_r.
  - inversion Hall as [| ? ? Ha Hrest]; subst.
    destruct a as [h | f | h | f | what]; simpl in Ha; try discriminate; simpl;
      match goal with
      | |- context [validate hs (clean ++ [?x])] =>
          destruct (IH (clean ++ [x]) Hrest) as [hs' [H2 Hv]];
          exists (x :: hs'); split;
          [constructor; [reflexivity | exact H2]
          | rewrite Hv, <- app_assoc; reflexivity]
      end.
Qed.

Lemma validate_Other (hs : list any) (clean : list Handler) (what : string) :
  In (Other what) hs -> validate hs clean = Panic "not a valid handler".
Proof.
  revert clean. induction hs as [| a hs IH]; intros clean Hin; [destruct Hin |].
  destruct Hin as [-> | Hin]; [reflexivity |].
  destruct a; simpl; auto.
Qed.

Lemma Add_Return (method pattern : string) (hs : list any) (m : Mux) (clean : list Handler) :
  hs <> [] -> validate hs [] = Return clean ->
  Add method pattern hs m =
  (Return tt, {| routes := routes m ++ [newRoute method pattern clean] |}).
Proof.
  intros Hne Hv. unfold Add.
  destruct (decide (length hs = 0)) as [Hlen | _].
  - destruct hs; [congruence | discriminate].
  - unfold mbind, M_bind, lift, modify. now rewrite Hv.
Qed.

Lemma Add_Panic (method pattern : string) (hs : list any) (m : Mux) (msg : string) :
  hs <> [] -> validate hs [] = Panic msg ->
  Add method pattern hs m = (Panic msg, m).
Proof.
  intros Hne Hv. unfold Add.
  destruct (decide (length hs = 0)) as [Hlen | _].
  - destruct hs; [congruence | discriminate].
  - unfold mbind, M_bind, lift. now rewrite Hv.
Qed.

Lemma accepted_all_or_Other (hs : list any) :
  Forall (fun a => accepted a = true) hs \/ exists what, In (Other what) hs.
Proof.
  induction hs as [| a hs [IH | [what IH]]].
  - left. constructor.
  - destruct a as [h | f | h | f | what];
      try (left; constructor; [reflexivity | exact IH]).
    right. exists what. now left.
  - right. exists what. now right.
Qed.

(** The three ways a call of [Add] can end. *)
Lemma Add_cases (method pattern : string) (hs : list any) (m : Mux) :
  (hs = [] /\ Add method pattern hs m = (Panic "no handlers provided", m)) \/
  (hs <> [] /\ (exists what, In (Other what) hs) /\
     Add method pattern hs m = (Panic "not a valid handler", m)) \/
  (hs <> [] /\ exists clean, Forall2 (fun a h => adapt a = Some h) hs clean /\
     Add method pattern hs m =
     (Return tt, {| routes := routes m ++ [newRoute method pattern clean] |})).
Proof.
  destruct hs as [| a hs]; [left; split; reflexivity |].
  right.
  destruct (accepted_all_or_Other (a :: hs)) as [Hall | [what Hin]].
  - right. split; [discriminate |].
    destruct (validate_adapt (a :: hs) [] Hall) as [clean [H2 Hv]].
    exists clean. split; [exact H2 |].
    apply Add_Return; [discriminate | exact Hv].
  - left. split; [discriminate |].
    split; [eauto |].
    apply Add_Panic; [discriminate |]. now apply (validate_Other _ _ what).
Qed.

(** C4. [Add] panics when it is given no handler argument, it panics when
    some argument has none of the four accepted shapes (an empty list
    aside, with the message of the type switch), and when there is
    at least one argument and every argument has an accepted shape it
    returns with exactly one new route at the end of the registry, made
    of the method, the pattern and the adapted handlers. *)
Theorem Add_registers_or_panics (method pattern : string) (hs : list any) (m : Mux) :
  (hs = [] -> outcome (Add method pattern hs m) = Panic "no handlers provided") /\
  ((exists a, In a hs /\ accepted a = false) ->
     outcome (Add method pattern hs m) = Panic "not a valid handler") /\
  (hs <> [] -> Forall (fun a => accepted a = true) hs ->
     exists clean, Forall2 (fun a h => adapt a = Some h) hs clean /\
       Add method pattern hs m =
       (Return tt, {| routes := routes m ++ [newRoute method pattern clean] |})).
Proof.
  split; [| split].
  - intros ->. reflexivity.
  - intros [a [Hin Ha]]. destruct a; try discriminate.
    destruct (Add_cases method pattern hs m) as [[-> _] | [[_ [_ H]] | [_ [clean [H2 _]]]]].
    + destruct Hin.
    + now rewrite H.
    + exfalso. clear - Hin H2.
      induction H2 as [| x h xs hs' Hx _ IH]; [destruct Hin |].
      destruct Hin as [-> | Hin]; [discriminate | auto].
  - intros Hne Hall.
    destruct (validate_adapt hs [] Hall) as [clean [H2 Hv]].
    exists clean. split; [exact H2 |]. now apply Add_Return.
Qed.

Lemma Add_registers_or_panics_witness :
  outcome (Add "GET" "/a" [] zero) = Panic "no handlers provided" /\
  outcome (Add "GET" "/a" [IsFunc 1; Other "int"] zero) = Panic "not a valid handler" /\
  (exists clean,
     Forall2 (fun a h => adapt a = Some h) [IsFunc 1; IsHttpFunc 7] clean /\
     Add "GET" "/a" [IsFunc 1; IsHttpFunc 7] zero =
     (Return tt, {| routes := routes zero ++ [newRoute "GET" "/a" clean] |})).
Proof.
  split; [| split].
  - apply (Add_registers_or_panics "GET" "/a" [] zero). reflexivity.
  - apply (Add_registers_or_panics "GET" "/a" [IsFunc 1; Other "int"] zero).
    exists (Other "int"). split; [simpl; auto | reflexivity].
  - apply (Add_registers_or_panics "GET" "/a" [IsFunc 1; IsHttpFunc 7] zero).
    + discriminate.
    + repeat constructor.
Defined.

(** C9. When [Add] panics, the Mux is as it was before the call; and it
    panics only for an empty argument list or an argument of no accepted
    shape. *)
Theorem Add_panic_leaves_routes (method pattern : string) (hs : list any) (m : Mux) (msg : string) :
  outcome (Add method pattern hs m) = Panic msg ->
  final (Add method pattern hs m) = m /\
  (hs = [] \/ exists a, In a hs /\ accepted a = false).
Proof.
  intros H.
  destruct (Add_cases method pattern hs m) as [[Hhs E] | [[_ [[what Hin] E]] | [_ [clean [_ E]]]]];
    rewrite E in *; simpl in *.
  - auto.
  - split; [reflexivity |]. right. exists (Other what). auto.
  - discriminate.
Qed.

Lemma Add_panic_leaves_routes_witness :
  final (Add "POST" "/b" [IsFunc 2; Other "nil"; IsFunc 3]
           (final (Add "GET" "/a" [IsFunc 1] zero))) =
  final (Add "GET" "/a" [IsFunc 1] zero).
Proof.
  apply (Add_panic_leaves_routes "POST" "/b" [IsFunc 2; Other "nil"; IsFunc 3]
           (final (Add "GET" "/a" [IsFunc 1] zero)) "not a valid handler").
  reflexivity.
Defined.

(** ** Queue objects *)

Lemma load_Some (q : qref) (c : queue) (st : State) :
  heap st !! q = Some c -> load q st = (Return c, st).
Proof. intros H. unfold load. now rewrite H. Qed.

Lemma lookup_stored (q : qref) (c c' : queue) (l : list queue) :
  l !! q = Some c -> <[q := c']> l !! q = Some c'.
Proof. intros H. apply list_lookup_insert_eq. now apply lookup_lt_Some in H. Qed.

Lemma set_handlers_Some (q : qref) (c : queue) (hs : list Handler) (st : State) :
  heap st !! q = Some c ->
  set_handlers q hs st =
  (Return tt,
   {| heap := <[q := {| q_handlers := hs; q_routes := q_routes c;
                        q_parent := q_parent c; q_self := q_self c |}]> (heap st);
      invoked := invoked st; examined := examined st; written := written st |}).
Proof. intros H. unfold set_handlers. now rewrite (bind_Return _ _ _ _ _ (load_Some _ _ _ H)). Qed.

Lemma set_routes_Some (q : qref) (c : queue) (rs : list route) (st : State) :
  heap st !! q = Some c ->
  set_routes q rs st =
  (Return tt,
   {| heap := <[q := {| q_handlers := q_handlers c; q_routes := rs;
                        q_parent := q_parent c; q_self := q_self c |}]> (heap st);
      invoked := invoked st; examined := examined st; written := written st |}).
Proof. intros H. unfold set_routes. now rewrite (bind_Return _ _ _ _ _ (load_Some _ _ _ H)). Qed.

Lemma set_self_Some (q : qref) (c : queue) (p : option Parameters) (st : State) :
  heap st !! q = Some c ->
  set_self q p st =
  (Return tt,
   {| heap := <[q := {| q_handlers := q_handlers c; q_routes := q_routes c;
                        q_parent := q_parent c; q_self := p |}]> (heap st);
      invoked := invoked st; examined := examined st; written := written st |}).
Proof. intros H. unfold set_self. now rewrite (bind_Return _ _ _ _ _ (load_Some _ _ _ H)). Qed.

Lemma set_self_parent_Some (q : qref) (c : queue) (p : Parameters) (st : State) :
  heap st !! q = Some c -> q_self c = Some p ->
  set_self_parent q st =
  (Return tt,
   {| heap := <[q := {| q_handlers := q_handlers c; q_routes := q_routes c;
                        q_parent := q_parent c;
                        q_self := Some (mkParameters (q_parent c) (values p)) |}]> (heap st);
      invoked := invoked st; examined := examined st; written := written st |}).
Proof.
  intros H Hp. unfold set_self_parent.
  rewrite (bind_Return _ _ _ _ _ (load_Some _ _ _ H)), Hp.
  now apply set_self_Some.
Qed.

Lemma set_self_parent_nil (q : qref) (c : queue) (st : State) :
  heap st !! q = Some c -> q_self c = None ->
  set_self_parent q st = (Panic nil_dereference, st).
Proof.
  intros H Hp. unfold set_self_parent.
  now rewrite (bind_Return _ _ _ _ _ (load_Some _ _ _ H)), Hp.
Qed.

Section DispatchFacts.

Variable matcher : route -> string -> string -> bool * option Parameters.
Variable invoke : Handler -> ResponseWriter -> Request -> M State unit.

Lemma call_Some (h : Handler) (q : qref) (c : queue) (w : ResponseWriter)
    (hr : http_Request) (st : State) :
  heap st !! q = Some c ->
  call invoke h q w hr st =
  invoke h w {| embedded := hr; Params := q_self c; queue_of := Some q |}
    {| heap := heap st;
       invoked := invoked st ++
         [(h, w, {| embedded := hr; Params := q_self c; queue_of := Some q |})];
       examined := examined st; written := written st |}.
Proof.
  intros H. unfold call.
  now rewrite (bind_Return _ _ _ _ _ (load_Some _ _ _ H)).
Qed.

(** A step of the loop on a route that does not match. *)
Lemma scan_skip (r : route) (rest : list route) (q : qref) (c : queue)
    (w : ResponseWriter) (hr : http_Request) (st : State) :
  heap st !! q = Some c ->
  fst (matcher r (Method hr) (URL_Path hr)) = false ->
  scan matcher invoke (r :: rest) q w hr st =
  scan matcher invoke rest q w hr
    {| heap := <[q := {| q_handlers := q_handlers c; q_routes := rest;
                         q_parent := q_parent c; q_self := q_self c |}]> (heap st);
       invoked := invoked st;
       examined := examined st ++ [(r, Method hr, URL_Path hr)];
       written := written st |}.
Proof.
  intros H Hno. simpl.
  rewrite (bind_Return _ _ _ _ _ (set_routes_Some _ _ rest _ H)).
  destruct (matcher r (Method hr) (URL_Path hr)) as [ok params]. simpl in Hno. subst ok.
  reflexivity.
Qed.

(** The loop on routes none of which matches: every one is examined and
    dropped, nothing else happens. *)
Lemma scan_no_match (rs : list route) (q : qref) (c : queue)
    (w : ResponseWriter) (hr : http_Request) (st : State) :
  heap st !! q = Some c -> q_routes c = rs ->
  Forall (fun r => fst (matcher r (Method hr) (URL_Path hr)) = false) rs ->
  scan matcher invoke rs q w hr st =
  (Return tt,
   {| heap := <[q := {| q_handlers := q_handlers c; q_routes := [];
                        q_parent := q_parent c; q_self := q_self c |}]> (heap st);
      invoked := invoked st;
      examined := examined st ++ map (fun r => (r, Method hr, URL_Path hr)) rs;
      written := written st |}).
Proof.
  revert c st. induction rs as [| r rest IH]; intros c st H Hrs Hall.
  - simpl. rewrite app_nil_r. rewrite list_insert_id.
    + now destruct st.
    + destruct c. simpl in Hrs. subst. exact H.
  - inversion Hall as [| ? ? Hr Hrest]; subst.
    rewrite (scan_skip r rest q c w hr st H Hr).
    erewrite IH; [| eapply lookup_stored, H | reflexivity | exact Hrest].
    simpl. rewrite list_insert_insert_eq, <- app_assoc. reflexivity.
Qed.

(** A step of the loop on a route that matches. *)
Lemma scan_match (r : route) (post : list route) (q : qref) (c : queue)
    (w : ResponseWriter) (hr : http_Request) (st : State)
    (p : Parameters) (h0 : Handler) (tail : list Handler) :
  heap st !! q = Some c ->
  matcher r (Method hr) (URL_Path hr) = (true, Some p) ->
  handlers r = h0 :: tail ->
  scan matcher invoke (r :: post) q w hr st =
  invoke h0 w
    {| embedded := hr; Params := Some (mkParameters (q_parent c) (values p));
       queue_of := Some q |}
    {| heap := <[q := {| q_handlers := tail; q_routes := post;
                         q_parent := q_parent c;
                         q_self := Some (mkParameters (q_parent c) (values p)) |}]>
                 (heap st);
       invoked := invoked st ++
         [(h0, w, {| embedded := hr;
                     Params := Some (mkParameters (q_parent c) (values p));
                     queue_of := Some q |})];
       examined := examined st ++ [(r, Method hr, URL_Path hr)];
       written := written st |}.
Proof.
  intros H Hm Hh. simpl.
  rewrite (bind_Return _ _ _ _ _ (set_routes_Some _ _ post _ H)).
  rewrite Hm, Hh. simpl negb. cbv iota.
  unfold log_examined. rewrite bind_modify.
  erewrite bind_Return; [| eapply set_handlers_Some, lookup_stored, H ].
  erewrite bind_Return; [| eapply set_self_Some, lookup_stored, lookup_stored, H ].
  erewrite bind_Return;
    [| eapply set_self_parent_Some;
       [eapply lookup_stored, lookup_stored, lookup_stored, H | reflexivity] ].
  erewrite call_Some; [| eapply lookup_stored, lookup_stored, lookup_stored, lookup_stored, H ].
  simpl. rewrite !list_insert_insert_eq. reflexivity.
Qed.

(** A matching route without handlers: the slice expression panics. *)
Lemma scan_match_no_handlers (r : route) (post : list route) (q : qref) (c : queue)
    (w : ResponseWriter) (hr : http_Request) (st : State) (params : option Parameters) :
  heap st !! q = Some c ->
  matcher r (Method hr) (URL_Path hr) = (true, params) ->
  handlers r = [] ->
  outcome (scan matcher invoke (r :: post) q w hr st) = Panic out_of_range.
Proof.
  intros H Hm Hh. simpl.
  rewrite (bind_Return _ _ _ _ _ (set_routes_Some _ _ post _ H)).
  rewrite Hm, Hh. reflexivity.
Qed.

(** The loop up to the first route that matches. *)
Lemma scan_first_match (pre : list route) (r : route) (post : list route)
    (q : qref) (c : queue) (w : ResponseWriter) (hr : http_Request) (st : State)
    (p : Parameters) (h0 : Handler) (tail : list Handler) :
  heap st !! q = Some c ->
  Forall (fun x => fst (matcher x (Method hr) (URL_Path hr)) = false) pre ->
  matcher r (Method hr) (URL_Path hr) = (true, Some p) ->
  handlers r = h0 :: tail ->
  scan matcher invoke (pre ++ r :: post) q w hr st =
  invoke h0 w
    {| embedded := hr; Params := Some (mkParameters (q_parent c) (values p));
       queue_of := Some q |}
    {| heap := <[q := {| q_handlers := tail; q_routes := post;
                         q_parent := q_parent c;
                         q_self := Some (mkParameters (q_parent c) (values p)) |}]>
                 (heap st);
       invoked := invoked st ++
         [(h0, w, {| embedded := hr;
                     Params := Some (mkParameters (q_parent c) (values p));
                     queue_of := Some q |})];
       examined := examined st ++
         map (fun x => (x, Method hr, URL_Path hr)) (pre ++ [r]);
       written := written st |}.
Proof.
  intros H Hpre Hm Hh. revert c st H.
  induction pre as [| x pre IH]; intros c st H.
  - simpl app. now apply scan_match.
  - inversion Hpre as [| ? ? Hx Hrest]; subst.
    rewrite <- app_comm_cons.
    rewrite (scan_skip x _ q c w hr st H Hx).
    erewrite (IH Hrest); [| eapply lookup_stored, H ].
    simpl. rewrite list_insert_insert_eq, <- app_assoc. reflexivity.
Qed.

Lemma serveNext_pop (q : qref) (c : queue) (h : Handler) (rest : list Handler)
    (w : ResponseWriter) (hr : http_Request) (st : State) :
  heap st !! q = Some c -> q_handlers c = h :: rest ->
  serveNext matcher invoke q w hr st =
  invoke h w {| embedded := hr; Params := q_self c; queue_of := Some q |}
    {| heap := <[q := {| q_handlers := rest; q_routes := q_routes c;
                         q_parent := q_parent c; q_self := q_self c |}]> (heap st);
       invoked := invoked st ++
         [(h, w, {| embedded := hr; Params := q_self c; queue_of := Some q |})];
       examined := examined st; written := written st |}.
Proof.
  intros H Hh. unfold serveNext.
  rewrite (bind_Return _ _ _ _ _ (load_Some _ _ _ H)), Hh.
  rewrite (bind_Return _ _ _ _ _ (set_handlers_Some _ _ rest _ H)).
  erewrite call_Some; [| eapply lookup_stored, H ].
  reflexivity.
Qed.

Lemma serveNext_scan (q : qref) (c : queue)
    (w : ResponseWriter) (hr : http_Request) (st : State) :
  heap st !! q = Some c -> q_handlers c = [] ->
  serveNext matcher invoke q w hr st = scan matcher invoke (q_routes c) q w hr st.
Proof.
  intros H Hh. unfold serveNext.
  now rewrite (bind_Return _ _ _ _ _ (load_Some _ _ _ H)), Hh.
Qed.

End DispatchFacts.

(** ** The dispatch queue *)

Section DispatchClaims.

Variable matcher : route -> string -> string -> bool * option Parameters.
Variable invoke : Handler -> ResponseWriter -> Request -> M State unit.

(** C1. A queue with no handler left and no route left that matches the
    request: [serveNext] returns normally, after examining and dropping
    the routes that were left; it invokes no handler and nothing is
    written to any response writer.  On a queue with neither handlers
    nor routes left it changes nothing at all, and so does the
    continuation [Next] of a request bound to that queue. *)
Theorem serveNext_exhausted (q : qref) (c : queue) (w : ResponseWriter)
    (hr : http_Request) (st : State) :
  heap st !! q = Some c ->
  q_handlers c = [] ->
  Forall (fun r => fst (matcher r (Method hr) (URL_Path hr)) = false) (q_routes c) ->
  serveNext matcher invoke q w hr st =
    (Return tt,
     {| heap := <[q := {| q_handlers := []; q_routes := [];
                          q_parent := q_parent c; q_self := q_self c |}]> (heap st);
        invoked := invoked st;
        examined := examined st ++
          map (fun r => (r, Method hr, URL_Path hr)) (q_routes c);
        written := written st |}) /\
  (q_routes c = [] ->
     serveNext matcher invoke q w hr st = (Return tt, st) /\
     forall p, Next matcher invoke
                 {| embedded := hr; Params := p; queue_of := Some q |} w st =
               (Return tt, st)).
Proof.
  intros H Hh Hall.
  assert (serveNext matcher invoke q w hr st =
    (Return tt,
     {| heap := <[q := {| q_handlers := []; q_routes := [];
                          q_parent := q_parent c; q_self := q_self c |}]> (heap st);
        invoked := invoked st;
        examined := examined st ++
          map (fun r => (r, Method hr, URL_Path hr)) (q_routes c);
        written := written st |})) as E.
  { rewrite (serveNext_scan matcher invoke q c w hr st H Hh).
    rewrite (scan_no_match matcher invoke (q_routes c) q c w hr st H eq_refl Hall).
    now rewrite Hh. }
  split; [exact E |].
  intros Hrs.
  assert (serveNext matcher invoke q w hr st = (Return tt, st)) as E'.
  { rewrite E, Hrs. simpl. rewrite app_nil_r, list_insert_id.
    - now destruct st.
    - destruct c. simpl in *. subst. exact H. }
  split; [exact E' |]. intros p. exact E'.
Qed.

(** C6. A queue with a handler left: [serveNext] takes the front handler
    off the list and invokes it, once, with the response writer and a
    request that carries the queue's current scope and the address of
    this queue, so that [Next] on that request is [serveNext] on the
    queue; what the call of the handler gives is what [serveNext] gives.
    The routes of the queue are not touched and the matcher is not
    called. *)
Theorem serveNext_runs_front_handler (q : qref) (c : queue) (h : Handler)
    (rest : list Handler) (w : ResponseWriter) (hr : http_Request) (st : State) :
  heap st !! q = Some c ->
  q_handlers c = h :: rest ->
  serveNext matcher invoke q w hr st =
  invoke h w {| embedded := hr; Params := q_self c; queue_of := Some q |}
    {| heap := <[q := {| q_handlers := rest; q_routes := q_routes c;
                         q_parent := q_parent c; q_self := q_self c |}]> (heap st);
       invoked := invoked st ++
         [(h, w, {| embedded := hr; Params := q_self c; queue_of := Some q |})];
       examined := examined st;
       written := written st |} /\
  forall w' st',
    Next matcher invoke
      {| embedded := hr; Params := q_self c; queue_of := Some q |} w' st' =
    serveNext matcher invoke q w' hr st'.
Proof.
  intros H Hh. split; [now apply serveNext_pop | reflexivity].
Qed.

(** C7. A queue with no handler left: [serveNext] examines the routes
    from the front, in the order of registration, and drops those that
    do not match.  At the first route that matches it makes the queue's
    parent scope the parent of the scope the matcher returned, makes
    that scope the current one, leaves all but the first handler of the
    route as the handlers of the queue, the routes after the matched one
    as its routes, and invokes the first handler of the route. *)
Theorem serveNext_first_matching_route (q : qref) (c : queue)
    (pre : list route) (r : route) (post : list route)
    (p : Parameters) (h0 : Handler) (tail : list Handler)
    (w : ResponseWriter) (hr : http_Request) (st : State) :
  heap st !! q = Some c ->
  q_handlers c = [] ->
  q_routes c = pre ++ r :: post ->
  Forall (fun x => fst (matcher x (Method hr) (URL_Path hr)) = false) pre ->
  matcher r (Method hr) (URL_Path hr) = (true, Some p) ->
  handlers r = h0 :: tail ->
  serveNext matcher invoke q w hr st =
  invoke h0 w
    {| embedded := hr; Params := Some (mkParameters (q_parent c) (values p));
       queue_of := Some q |}
    {| heap := <[q := {| q_handlers := tail; q_routes := post;
                         q_parent := q_parent c;
                         q_self := Some (mkParameters (q_parent c) (values p)) |}]>
                 (heap st);
       invoked := invoked st ++
         [(h0, w, {| embedded := hr;
                     Params := Some (mkParameters (q_parent c) (values p));
                     queue_of := Some q |})];
       examined := examined st ++
         map (fun x => (x, Method hr, URL_Path hr)) (pre ++ [r]);
       written := written st |}.
Proof.
  intros H Hh Hrs Hpre Hm Hr.
  rewrite (serveNext_scan matcher invoke q c w hr st H Hh), Hrs.
  now apply scan_first_match.
Qed.

(** C8. [ServeRoboHTTP] makes a new queue object, with no handlers, all
    the routes of the Mux in their order, the scope of the incoming
    request as parent and no current scope, and calls [serveNext] on it,
    once; [ServeHTTP] is [ServeRoboHTTP] on a request without scope, so
    its queue has no parent scope. *)
Theorem ServeRoboHTTP_seeds_queue (m : Mux) (w : ResponseWriter) (r : Request)
    (hr : http_Request) (st : State) :
  heap st !! length (heap st) = None /\
  ServeRoboHTTP matcher invoke m w r st =
    serveNext matcher invoke (length (heap st)) w (embedded r)
      {| heap := heap st ++ [{| q_handlers := []; q_routes := routes m;
                                q_parent := Params r; q_self := None |}];
         invoked := invoked st; examined := examined st;
         written := written st |} /\
  ServeHTTP matcher invoke m w hr st =
    serveNext matcher invoke (length (heap st)) w hr
      {| heap := heap st ++ [{| q_handlers := []; q_routes := routes m;
                                q_parent := None; q_self := None |}];
         invoked := invoked st; examined := examined st;
         written := written st |} /\
  forall c, (heap st ++ [c]) !! length (heap st) = Some c.
Proof.
  split; [| split; [| split]].
  - now apply lookup_ge_None_2.
  - reflexivity.
  - reflexivity.
  - intros c. now apply list_lookup_middle.
Qed.

End DispatchClaims.

Lemma serveNext_exhausted_witness :
  serveNext Check (run Check sample 3) 0 5 (GET "/a") at_start =
    (Return tt,
     {| heap := [{| q_handlers := []; q_routes := [];
                    q_parent := Some outer_scope; q_self := None |}];
        invoked := [];
        examined := map (fun r => (r, "GET", "/a")) (routes site);
        written := [] |}) /\
  Next Check (run Check sample 3)
    {| embedded := GET "/a"; Params := Some inner_scope; queue_of := Some 0 |}
    5 spent = (Return tt, spent).
Proof.
  split.
  - destruct (serveNext_exhausted Check (run Check sample 3) 0
                (mkQueue [] (routes site) (Some outer_scope) None)
                5 (GET "/a") at_start eq_refl eq_refl) as [E _].
    + repeat constructor.
    + exact E.
  - destruct (serveNext_exhausted Check (run Check sample 3) 0
                (mkQueue [] [] None (Some inner_scope))
                5 (GET "/a") spent eq_refl eq_refl) as [_ E].
    + constructor.
    + apply (E eq_refl).
Defined.

Lemma serveNext_runs_front_handler_witness :
  serveNext Check (run Check sample 3) 0 5 (GET "/a") under_way =
    (Return tt,
     {| heap := [{| q_handlers := [HandlerFunc 1]; q_routes := routes site;
                    q_parent := None; q_self := Some inner_scope |}];
        invoked := [(HandlerFunc 3, 5,
                     {| embedded := GET "/a"; Params := Some inner_scope;
                        queue_of := Some 0 |})];
        examined := [];
        written := [(5, "three")] |}).
Proof.
  rewrite (proj1 (serveNext_runs_front_handler Check (run Check sample 3) 0
             (mkQueue [HandlerFunc 3; HandlerFunc 1] (routes site) None (Some inner_scope))
             (HandlerFunc 3) [HandlerFunc 1] 5 (GET "/a") under_way eq_refl eq_refl)).
  reflexivity.
Defined.

Lemma serveNext_first_matching_route_witness :
  serveNext literal (run literal sample 3) 0 5 (GET "/b") at_start =
    (Return tt,
     {| heap := [{| q_handlers := []; q_routes := [];
                    q_parent := Some outer_scope;
                    q_self := Some (mkParameters (Some outer_scope)
                                      (Some (<["path" := "/b"]> ∅))) |}];
        invoked := [(HandlerFunc 3, 5,
                     {| embedded := GET "/b";
                        Params := Some (mkParameters (Some outer_scope)
                                          (Some (<["path" := "/b"]> ∅)));
                        queue_of := Some 0 |})];
        examined := map (fun r => (r, "GET", "/b")) (routes site);
        written := [(5, "three")] |}).
Proof.
  rewrite (serveNext_first_matching_route literal (run literal sample 3) 0
             (mkQueue [] (routes site) (Some outer_scope) None)
             [newRoute "GET" "/a" [HandlerFunc 1; httpHandler (http_HandlerFunc 7)];
              newRoute "GET" "/a" [HandlerFunc 2]]
             (newRoute "GET" "/b" [HandlerFunc 3]) []
             (set "path" "/b" (mkParameters None None))
             (HandlerFunc 3) [] 5 (GET "/b") at_start).
  - reflexivity.
  - reflexivity.
  - reflexivity.
  - reflexivity.
  - repeat constructor.
  - reflexivity.
  - reflexivity.
Defined.

(** ** The registry invariant *)

Lemma ServeRoboHTTP_alloc
    (matcher : route -> string -> string -> bool * option Parameters)
    (invoke : Handler -> ResponseWriter -> Request -> M State unit)
    (m : Mux) (w : ResponseWriter) (r : Request) (st : State) :
  ServeRoboHTTP matcher invoke m w r st =
  serveNext matcher invoke (length (heap st)) w (embedded r)
    {| heap := heap st ++ [{| q_handlers := []; q_routes := routes m;
                              q_parent := Params r; q_self := None |}];
       invoked := invoked st; examined := examined st;
       written := written st |}.
Proof. reflexivity. Qed.

Lemma adapted_nonempty (hs : list any) (clean : list Handler) :
  hs <> [] -> Forall2 (fun a h => adapt a = Some h) hs clean -> clean <> [].
Proof. intros Hne H2. destruct H2; [congruence | discriminate]. Qed.

Lemma built_nonempty (m : Mux) :
  built m -> Forall (fun r => handlers r <> []) (routes m).
Proof.
  induction 1 as [| m method pattern hs _ IH]; [constructor |].
  destruct (Add_cases method pattern hs m)
    as [[_ E] | [[_ [_ E]] | [Hne [clean [H2 E]]]]]; rewrite E; simpl; auto.
  apply Forall_app. split; [exact IH |].
  constructor; [| constructor]. simpl. now apply (adapted_nonempty hs).
Qed.

Lemma site_built : built site.
Proof. unfold site, final. repeat apply built_Add. apply built_zero. Qed.

(** ** Whole programs stay in bounds *)

Lemma in_bounds_bind {A B : Type} (c : M State A) (f : A -> M State B)
    (Q : A -> Prop) (R : B -> Prop) :
  in_bounds c Q -> (forall a, Q a -> in_bounds (f a) R) ->
  in_bounds (c ≫= f) R.
Proof.
  intros Hc Hf s Hs. destruct (Hc s Hs) as [Hout [Hfin Hval]].
  unfold mbind, M_bind.
  destruct (c s) as [[a | msg |] s'] eqn:E; simpl in *.
  - apply (Hf a); auto.
  - repeat split; [| exact Hfin | discriminate].
    intros E'. apply Hout. now inversion E'.
  - repeat split; [discriminate | exact Hfin | discriminate].
Qed.

Lemma in_bounds_ret {A : Type} (a : A) (Q : A -> Prop) :
  Q a -> in_bounds (mret a) Q.
Proof.
  intros HQ s Hs. repeat split; [discriminate | exact Hs |].
  intros a' E. change (Return a = Return a') in E. now injection E as <-.
Qed.

Lemma in_bounds_nil_dereference {A : Type} (Q : A -> Prop) :
  in_bounds (panic nil_dereference) Q.
Proof. intros s Hs. repeat split; [discriminate | exact Hs | discriminate]. Qed.

Lemma in_bounds_timeout {A : Type} (Q : A -> Prop) :
  in_bounds timeout Q.
Proof. intros s Hs. repeat split; [discriminate | exact Hs | discriminate]. Qed.

Lemma in_bounds_load (q : qref) :
  in_bounds (load q) (fun c => nonempty_routes (q_routes c)).
Proof.
  intros s Hs. unfold load.
  destruct (heap s !! q) as [c |] eqn:E; simpl.
  - repeat split; [discriminate | exact Hs |].
    intros a Ha. inversion Ha; subst.
    unfold sound_state in Hs. rewrite Forall_lookup in Hs. exact (Hs q a E).
  - repeat split; [discriminate | exact Hs | discriminate].
Qed.

Lemma in_bounds_store (q : qref) (c : queue) :
  nonempty_routes (q_routes c) -> in_bounds (store q c) (fun _ => True).
Proof.
  intros Hc s Hs. repeat split; [discriminate |].
  unfold sound_state. simpl. apply Forall_insert; assumption.
Qed.

Lemma in_bounds_alloc (c : queue) :
  nonempty_routes (q_routes c) -> in_bounds (alloc c) (fun _ => True).
Proof.
  intros Hc s Hs. repeat split; [discriminate |].
  unfold sound_state. simpl. apply Forall_app. split; [exact Hs |].
  now constructor.
Qed.

Lemma in_bounds_log_invoked (h : Handler) (w : ResponseWriter) (r : Request) :
  in_bounds (log_invoked h w r) (fun _ => True).
Proof. intros s Hs. repeat split; [discriminate | exact Hs]. Qed.

Lemma in_bounds_log_examined (r : route) (verb path : string) :
  in_bounds (log_examined r verb path) (fun _ => True).
Proof. intros s Hs. repeat split; [discriminate | exact Hs]. Qed.

Lemma in_bounds_log_written (w : ResponseWriter) (data : string) :
  in_bounds (log_written w data) (fun _ => True).
Proof. intros s Hs. repeat split; [discriminate | exact Hs]. Qed.

Lemma in_bounds_set_handlers (q : qref) (hs : list Handler) :
  in_bounds (set_handlers q hs) (fun _ => True).
Proof.
  unfold set_handlers. eapply in_bounds_bind; [apply in_bounds_load |].
  intros c Hc. now apply in_bounds_store.
Qed.

Lemma in_bounds_set_routes (q : qref) (rs : list route) :
  nonempty_routes rs -> in_bounds (set_routes q rs) (fun _ => True).
Proof.
  intros Hrs. unfold set_routes. eapply in_bounds_bind; [apply in_bounds_load |].
  intros c Hc. now apply in_bounds_store.
Qed.

Lemma in_bounds_set_self (q : qref) (p : option Parameters) :
  in_bounds (set_self q p) (fun _ => True).
Proof.
  unfold set_self. eapply in_bounds_bind; [apply in_bounds_load |].
  intros c Hc. now apply in_bounds_store.
Qed.

Lemma in_bounds_set_self_parent (q : qref) :
  in_bounds (set_self_parent q) (fun _ => True).
Proof.
  unfold set_self_parent. eapply in_bounds_bind; [apply in_bounds_load |].
  intros c Hc. destruct (q_self c).
  - apply in_bounds_set_self.
  - apply in_bounds_nil_dereference.
Qed.

Section InBounds.

Variable matcher : route -> string -> string -> bool * option Parameters.

Section Step.

Variable invoke : Handler -> ResponseWriter -> Request -> M State unit.
Hypothesis invoke_in_bounds :
  forall h w r, in_bounds (invoke h w r) (fun _ => True).

Lemma in_bounds_call (h : Handler) (q : qref) (w : ResponseWriter) (hr : http_Request) :
  in_bounds (call invoke h q w hr) (fun _ => True).
Proof.
  unfold call. eapply in_bounds_bind; [apply in_bounds_load |].
  intros c _. eapply in_bounds_bind; [apply in_bounds_log_invoked |].
  intros _ _. apply invoke_in_bounds.
Qed.

Lemma in_bounds_scan (rs : list route) (q : qref) (w : ResponseWriter) (hr : http_Request) :
  nonempty_routes rs -> in_bounds (scan matcher invoke rs q w hr) (fun _ => True).
Proof.
  induction rs as [| r rest IH]; intros Hrs; [now apply in_bounds_ret |].
  inversion Hrs as [| ? ? Hr Hrest]; subst. simpl.
  eapply in_bounds_bind; [now apply in_bounds_set_routes |].
  intros _ _. eapply in_bounds_bind; [apply in_bounds_log_examined |].
  intros _ _. destruct (matcher r (Method hr) (URL_Path hr)) as [[|] params]; simpl.
  - destruct (handlers r) as [| h0 tail]; [congruence |].
    eapply in_bounds_bind; [apply in_bounds_set_handlers |].
    intros _ _. eapply in_bounds_bind; [apply in_bounds_set_self |].
    intros _ _. eapply in_bounds_bind; [apply in_bounds_set_self_parent |].
    intros _ _. apply in_bounds_call.
  - now apply IH.
Qed.

Lemma in_bounds_serveNext (q : qref) (w : ResponseWriter) (hr : http_Request) :
  in_bounds (serveNext matcher invoke q w hr) (fun _ => True).
Proof.
  unfold serveNext. eapply in_bounds_bind; [apply in_bounds_load |].
  intros c Hc. destruct (q_handlers c) as [| h rest].
  - now apply in_bounds_scan.
  - eapply in_bounds_bind; [apply in_bounds_set_handlers |].
    intros _ _. apply in_bounds_call.
Qed.

Lemma in_bounds_Next (r : Request) (w : ResponseWriter) :
  in_bounds (Next matcher invoke r w) (fun _ => True).
Proof.
  unfold Next. destruct (queue_of r).
  - apply in_bounds_serveNext.
  - apply in_bounds_nil_dereference.
Qed.

Lemma in_bounds_ServeRoboHTTP (m : Mux) (w : ResponseWriter) (r : Request) :
  nonempty_routes (routes m) ->
  in_bounds (ServeRoboHTTP matcher invoke m w r) (fun _ => True).
Proof.
  intros Hm. unfold ServeRoboHTTP.
  eapply in_bounds_bind; [now apply in_bounds_alloc |].
  intros q _. apply in_bounds_serveNext.
Qed.

End Step.

Variable prog : Program.
Hypothesis prog_sound : sound_program prog.

Lemma in_bounds_script (next : Request -> ResponseWriter -> M State unit)
    (acts : list Action) (w : ResponseWriter) (r : Request) :
  (forall r w, in_bounds (next r w) (fun _ => True)) ->
  in_bounds (script next acts w r) (fun _ => True).
Proof.
  intros Hnext. induction acts as [| [data | key |] rest IH]; simpl.
  - now apply in_bounds_ret.
  - eapply in_bounds_bind; [apply in_bounds_log_written |]. intros _ _. exact IH.
  - destruct (Params r); [| apply in_bounds_nil_dereference].
    eapply in_bounds_bind; [apply in_bounds_log_written |]. intros _ _. exact IH.
  - eapply in_bounds_bind; [apply Hnext |]. intros _ _. exact IH.
Qed.

Lemma in_bounds_http_script (chunks : list string) (w : ResponseWriter) :
  in_bounds (http_script chunks w) (fun _ => True).
Proof.
  induction chunks as [| data rest IH]; simpl.
  - now apply in_bounds_ret.
  - eapply in_bounds_bind; [apply in_bounds_log_written |]. intros _ _. exact IH.
Qed.

(** Every handler of a sound program, with any fuel. *)
Lemma in_bounds_run (fuel : nat) (h : Handler) (w : ResponseWriter) (r : Request) :
  in_bounds (run matcher prog fuel h w r) (fun _ => True).
Proof.
  revert h w r. induction fuel as [| n IH]; intros h w r; [apply in_bounds_timeout |].
  assert (forall o, in_bounds
            match robo_code prog o with
            | Script acts => script (Next matcher (run matcher prog n)) acts w r
            | Nested m => ServeRoboHTTP matcher (run matcher prog n) m w r
            end (fun _ => True)) as Hcode.
  { intros o. destruct (robo_code prog o) as [acts | m] eqn:E.
    - apply in_bounds_script. intros r' w'. now apply in_bounds_Next.
    - apply in_bounds_ServeRoboHTTP; [exact IH |].
      apply built_nonempty. exact (prog_sound o m E). }
  destruct h as [o | f | [o | f]]; simpl.
  - apply Hcode.
  - apply Hcode.
  - apply in_bounds_http_script.
  - apply in_bounds_http_script.
Qed.

(** A request served by a Mux populated through [Add], in a program whose
    nested Muxes are populated through [Add]: no index is out of range,
    whatever the matcher answers and however much fuel there is. *)
Lemma serve_in_bounds (fuel : nat) (m : Mux) (w : ResponseWriter)
    (hr : http_Request) (st : State) :
  built m -> sound_state st ->
  outcome (serve matcher prog fuel m w hr st) <> Panic out_of_range.
Proof.
  intros Hm Hs. unfold serve, ServeHTTP.
  apply (in_bounds_ServeRoboHTTP (run matcher prog fuel) (in_bounds_run fuel) m w _
           (built_nonempty m Hm) st Hs).
Qed.

End InBounds.

Lemma inner_site_built : built inner_site.
Proof. unfold inner_site. apply built_Add, built_zero. Qed.

Lemma sample_sound : sound_program sample.
Proof.
  intros o m. unfold sample. simpl.
  do 5 (destruct o as [| o]; [discriminate |]).
  destruct o as [| o]; [| discriminate].
  intros E. inversion E. apply inner_site_built.
Qed.

(** C10. Every route of a Mux that was populated through [Add] alone has
    a handler, so that the slice [r.handlers[1:]] and the element
    [r.handlers[0]] of a matched route exist.  Hence, whatever the
    matcher: a dispatch on such a Mux does not raise the slice-bounds
    panic and keeps every queue over routes with handlers, provided the
    handlers it invokes do; and in a program whose nested Muxes are
    populated through [Add] too, serving a request raises no such panic,
    with any fuel. *)
Theorem built_routes_in_bounds (m : Mux) :
  built m ->
  Forall (fun r => exists h0 tail, handlers r = h0 :: tail) (routes m) /\
  (forall (matcher : route -> string -> string -> bool * option Parameters)
          (invoke : Handler -> ResponseWriter -> Request -> M State unit),
     (forall h w r, in_bounds (invoke h w r) (fun _ => True)) ->
     forall w r, in_bounds (ServeRoboHTTP matcher invoke m w r) (fun _ => True)) /\
  (forall (matcher : route -> string -> string -> bool * option Parameters)
          (prog : Program) (fuel : nat) (w : ResponseWriter)
          (hr : http_Request) (st : State),
     sound_program prog -> sound_state st ->
     outcome (serve matcher prog fuel m w hr st) <> Panic out_of_range).
Proof.
  intros Hb. pose proof (built_nonempty m Hb) as Hne.
  split; [| split].
  - eapply Forall_impl; [exact Hne |].
    intros r Hr. simpl in Hr. destruct (handlers r) as [| h0 tail]; [congruence | eauto].
  - intros matcher invoke Hinv w r. now apply in_bounds_ServeRoboHTTP.
  - intros matcher prog fuel w hr st Hprog Hst. now apply serve_in_bounds.
Qed.

Lemma built_routes_in_bounds_witness :
  Forall (fun r => exists h0 tail, handlers r = h0 :: tail) (routes site) /\
  outcome (serve literal sample 9 site 5 (GET "/a") initial) <> Panic out_of_range.
Proof.
  destruct (built_routes_in_bounds site site_built) as [Hall [_ Hsafe]].
  split; [exact Hall |].
  apply Hsafe; [exact sample_sound | constructor].
Defined.

(** The invariant is what keeps the index in range: on a route without
    handlers that matches, the step panics. *)
Example hollow_route_out_of_range :
  outcome (ServeHTTP literal writer hollow 5 (GET "/a") initial) = Panic out_of_range.
Proof. reflexivity. Qed.

(** ** The matcher and the pattern compiler as they stand *)

(** With [Check], a dispatch examines every route, drops it, and returns:
    no handler of any Mux is ever invoked. *)
Lemma ServeHTTP_Check_invokes_nothing
    (invoke : Handler -> ResponseWriter -> Request -> M State unit)
    (m : Mux) (w : ResponseWriter) (hr : http_Request) (st : State) :
  ServeHTTP Check invoke m w hr st =
  (Return tt,
   {| heap := heap st ++ [{| q_handlers := []; q_routes := [];
                             q_parent := None; q_self := None |}];
      invoked := invoked st;
      examined := examined st ++ map (fun r => (r, Method hr, URL_Path hr)) (routes m);
      written := written st |}).
Proof.
  unfold ServeHTTP. rewrite ServeRoboHTTP_alloc.
  erewrite serveNext_scan; [| simpl; now apply list_lookup_middle | reflexivity].
  erewrite scan_no_match;
    [| simpl; now apply list_lookup_middle | reflexivity
     | apply List.Forall_forall; reflexivity].
  simpl. rewrite insert_app_r_alt by lia. rewrite Nat.sub_diag. reflexivity.
Qed.

(** C2. The route registered with pattern /users/:id does not match the
    path /users/42: [Check] answers false and gives no scope, as it does
    for the path /users/ and for every other request, and a dispatch of
    GET /users/42 on a Mux holding the route invokes none of its
    handlers. *)
Theorem Check_users_id_never_matches (hs : list Handler) (h : Handler) :
  Check (newRoute "GET" "/users/:id" hs) "GET" "/users/42" = (false, None) /\
  Check (newRoute "GET" "/users/:id" hs) "GET" "/users/" = (false, None) /\
  invoked (final (serve Check sample 9
                    (final (Add "GET" "/users/:id" [IsHandler h] zero))
                    5 (GET "/users/42") initial)) = [].
Proof.
  split; [reflexivity | split; [reflexivity |]].
  unfold serve. now rewrite ServeHTTP_Check_invokes_nothing.
Qed.

(** Registration does not look at the pattern: whether [Add] returns or
    panics, and with what message, is the same for every pattern. *)
Lemma Add_ignores_pattern (method pattern pattern' : string) (hs : list any) (m : Mux) :
  outcome (Add method pattern hs m) = outcome (Add method pattern' hs m).
Proof.
  destruct (Add_cases method pattern hs m) as [[-> E] | [[Hne [[what Hin] E]] | [Hne [clean [H2 E]]]]].
  - reflexivity.
  - rewrite E. erewrite Add_Panic; [reflexivity | exact Hne |].
    now apply (validate_Other _ _ what).
  - rewrite E.
    destruct (Add_cases method pattern' hs m) as [[-> _] | [[_ [[what Hin] _]] | [_ [clean' [_ E']]]]].
    + congruence.
    + exfalso. clear - Hin H2.
      induction H2 as [| x h xs hs' Hx _ IH]; [destruct Hin |].
      destruct Hin as [-> | Hin]; [discriminate | auto].
    + now rewrite E'.
Qed.

(** C3. Registration with the empty pattern, with a wildcard that is not
    last, with a name captured twice, with an empty parameter name and
    with an empty wildcard name: in each case [Add] returns normally and
    the route is in the registry. *)
Theorem Add_registers_any_pattern :
  Forall (fun pattern =>
            Add "GET" pattern [IsFunc 1] zero =
            (Return tt, {| routes := [newRoute "GET" pattern [HandlerFunc 1]] |}))
         [""; "/files/*rest/more"; "/users/:id/posts/:id"; "/users/:"; "/files/*"].
Proof. repeat constructor. Qed.

(** ** Whole dispatches *)

(** Two routes for one request under the stand-in matcher: the handler
    of the first yields, the handler of the second writes the captured
    path, and the first resumes. *)
Example chained_routes_run_in_order :
  outcome (serve literal sample 9 chained 5 (GET "/a") initial) = Return tt /\
  written (final (serve literal sample 9 chained 5 (GET "/a") initial)) =
  [(5, "one"); (5, "/a"); (5, "back")].
Proof. split; vm_compute; reflexivity. Qed.

(** The same registry and request with [Check]: nothing runs. *)
Example chained_routes_with_Check :
  outcome (serve Check sample 9 chained 5 (GET "/a") initial) = Return tt /\
  invoked (final (serve Check sample 9 chained 5 (GET "/a") initial)) = [] /\
  written (final (serve Check sample 9 chained 5 (GET "/a") initial)) = [].
Proof. split; [| split]; vm_compute; reflexivity. Qed.

(** A handler that yields twice: the second call finds the queue spent
    and does nothing. *)
Example second_yield_does_nothing :
  outcome (serve literal sample 9 eager 5 (GET "/a") initial) = Return tt /\
  map (fun x => fst (fst x))
      (invoked (final (serve literal sample 9 eager 5 (GET "/a") initial))) =
  [HandlerFunc 4; HandlerFunc 1; HandlerFunc 3] /\
  written (final (serve literal sample 9 eager 5 (GET "/a") initial)) =
  [(5, "one"); (5, "three"); (5, "back")].
Proof. split; [| split]; vm_compute; reflexivity. Qed.

(** A Mux as the handler of a route: the inner dispatch runs on a queue
    of its own, and the scope its handler sees has the scope of the outer
    match as parent. *)
Example nested_dispatch_chains_scopes :
  map (fun x => (fst (fst x), queue_of (snd x),
                 length (from_option chain [] (Params (snd x)))))
      (invoked (final (serve literal sample 9 nesting 5 (GET "/a") initial))) =
  [(Obj 5, Some 0, 1); (HandlerFunc 2, Some 1, 2)].
Proof. vm_compute. reflexivity. Qed.

(** * Further properties *)

(** ** Writing and reading a scope *)

Lemma own_set_same (p : Parameters) (key value : string) :
  own (set key value p) key = value.
Proof.
  unfold own, set, index.
  destruct (values p); simpl; now rewrite lookup_insert_eq.
Qed.

Lemma own_set_other (p : Parameters) (key key' value : string) :
  key' <> key -> own (set key value p) key' = own p key'.
Proof.
  intros Hne. unfold own, set, index.
  destruct (values p); simpl; rewrite lookup_insert_ne by congruence; [reflexivity |].
  now rewrite lookup_empty.
Qed.

Lemma parent_set (p : Parameters) (key value : string) :
  parent (set key value p) = parent p.
Proof. unfold set. now destruct (values p). Qed.

(** X1. Reading back the key just written: [Get] gives the value, unless
    the value is the empty string; an empty value is not a binding, and
    [Get] then gives what the parent scope gives, or the empty string
    when there is no parent.  This holds whether the map of the scope
    was nil before the write or not. *)
Theorem Get_set_same (p : Parameters) (key value : string) :
  Get (set key value p) key =
  if decide (value = "")
  then match parent p with
       | Some p' => Get p' key
       | None => ""
       end
  else value.
Proof.
  rewrite Get_unfold, own_set_same, parent_set.
  destruct (decide (value = "")); reflexivity.
Qed.

(** X2. Writing a key leaves the lookup of every other key as it was. *)
Theorem Get_set_other (p : Parameters) (key key' value : string) :
  key' <> key -> Get (set key value p) key' = Get p key'.
Proof.
  intros Hne. rewrite !Get_unfold, own_set_other, parent_set by exact Hne.
  reflexivity.
Qed.

Lemma Get_set_other_witness :
  Get (set "lang" "fr" inner_scope) "id" = Get inner_scope "id".
Proof. apply (Get_set_other inner_scope "lang" "id" "fr"). discriminate. Defined.

(** X3. Writes compose as assignments to a map do: a second write of the
    same key replaces the first, and writes of different keys can be
    made in either order. *)
Theorem set_set (p : Parameters) (k1 k2 v1 v2 : string) :
  set k1 v2 (set k1 v1 p) = set k1 v2 p /\
  (k1 <> k2 -> set k1 v1 (set k2 v2 p) = set k2 v2 (set k1 v1 p)).
Proof.
  split.
  - unfold set. destruct (values p); simpl; now rewrite insert_insert_eq.
  - intros Hne. unfold set.
    destruct (values p); simpl; f_equal; f_equal; now apply insert_insert_ne.
Qed.

Lemma set_set_witness :
  set "id" "1" (set "lang" "en" inner_scope) =
  set "lang" "en" (set "id" "1" inner_scope).
Proof. apply (set_set inner_scope "id" "lang" "1" "en"). discriminate. Defined.

(** X4. What [Get] returns is the first non-empty string among the
    bindings of the key in the scopes of the chain, from the innermost
    scope outwards, and the empty string if there is none: [Get] never
    returns a string that no scope of the chain binds the key to. *)
Theorem Get_first_binding (p : Parameters) (key : string) :
  Get p key =
  hd "" (filter (fun v => v <> "") (map (fun s => own s key) (chain p))).
Proof.
  induction p as [vals | p vals IH] using Parameters_chain_ind.
  - rewrite Get_unfold. simpl parent. simpl chain. simpl map.
    rewrite filter_cons, filter_nil.
    destruct (decide (own (mkParameters None vals) key = "")) as [E | E];
      destruct (decide (own (mkParameters None vals) key <> ""));
      try (exfalso; tauto); reflexivity.
  - rewrite Get_unfold. simpl parent.
    change (chain (mkParameters (Some p) vals))
      with (mkParameters (Some p) vals :: chain p).
    rewrite map_cons, filter_cons.
    destruct (decide (own (mkParameters (Some p) vals) key = "")) as [E | E];
      destruct (decide (own (mkParameters (Some p) vals) key <> ""));
      try (exfalso; tauto).
    + exact IH.
    + reflexivity.
Qed.

(** ** Sequences of registrations *)

Lemma validate_accepted (hs : list any) (clean : list Handler) :
  Forall (fun a => accepted a = true) hs ->
  validate hs clean = Return (clean ++ omap adapt hs).
Proof.
  revert clean. induction hs as [| a hs IH]; intros clean Hall.
  - simpl. now rewrite app_nil_r.
  - inversion Hall as [| ? ? Ha Hrest]; subst.
    destruct a as [h | f | h | f | what]; simpl in Ha; try discriminate; simpl;
      rewrite IH by exact Hrest; rewrite <- app_assoc; reflexivity.
Qed.

Lemma Add_acceptable (reg : registration) (m : Mux) :
  acceptable reg ->
  Add (fst (fst reg)) (snd (fst reg)) (snd reg) m =
  (Return tt, {| routes := routes m ++ [route_of reg] |}).
Proof.
  intros [Hne Hall]. apply Add_Return; [exact Hne |].
  now rewrite validate_accepted.
Qed.

Lemma Add_unacceptable (reg : registration) (m : Mux) :
  ~ acceptable reg ->
  exists msg, Add (fst (fst reg)) (snd (fst reg)) (snd reg) m = (Panic msg, m).
Proof.
  intros Hbad.
  destruct (Add_cases (fst (fst reg)) (snd (fst reg)) (snd reg) m)
    as [[_ E] | [[_ [_ E]] | [Hne [clean [H2 _]]]]]; eauto.
  exfalso. apply Hbad. split; [exact Hne |].
  clear - H2. induction H2 as [| a h hs clean Ha _ IH]; constructor; [| exact IH].
  destruct a; [reflexivity .. | discriminate].
Qed.

(** X5. A setup phase in which every call of [Add] is acceptable returns
    with the routes of the calls appended to the registry in the order
    of the calls.  A setup phase whose first unacceptable call comes
    after the calls [pre] panics there, and the registry then holds the
    routes of [pre], in order, and nothing of what follows: the calls
    already made are not undone. *)
Theorem setup_registers_in_order (regs : list registration) (m : Mux) :
  (Forall acceptable regs ->
     setup regs m = (Return tt, {| routes := routes m ++ map route_of regs |})) /\
  (forall pre bad post,
     regs = pre ++ bad :: post -> Forall acceptable pre -> ~ acceptable bad ->
     exists msg,
       setup regs m = (Panic msg, {| routes := routes m ++ map route_of pre |})).
Proof.
  split.
  - revert m. induction regs as [| [[verb pat] hs] rest IH]; intros m Hall.
    + simpl. rewrite app_nil_r. now destruct m.
    + inversion Hall as [| ? ? Hreg Hrest]; subst.
      change (setup ((verb, pat, hs) :: rest)) with (Add verb pat hs ≫= fun _ => setup rest).
      rewrite (bind_Return _ _ _ _ _ (Add_acceptable (verb, pat, hs) m Hreg)).
      rewrite (IH _ Hrest). simpl. now rewrite <- app_assoc.
  - intros pre bad post -> Hpre Hbad. revert m.
    induction pre as [| [[verb pat] hs] pre IH]; intros m.
    + destruct bad as [[verb pat] hs].
      destruct (Add_unacceptable (verb, pat, hs) m Hbad) as [msg E]. simpl in E.
      exists msg. simpl app.
      change (setup ((verb, pat, hs) :: post)) with (Add verb pat hs ≫= fun _ => setup post).
      unfold mbind, M_bind. rewrite E. simpl. rewrite app_nil_r. now destruct m.
    + inversion Hpre as [| ? ? Hreg Hrest]; subst.
      rewrite <- app_comm_cons.
      change (setup ((verb, pat, hs) :: pre ++ bad :: post))
        with (Add verb pat hs ≫= fun _ => setup (pre ++ bad :: post)).
      rewrite (bind_Return _ _ _ _ _ (Add_acceptable (verb, pat, hs) m Hreg)).
      destruct (IH Hrest {| routes := routes m ++ [route_of (verb, pat, hs)] |}) as [msg E].
      exists msg. rewrite E. simpl. now rewrite <- app_assoc.
Qed.

Lemma setup_registers_in_order_witness :
  setup [("GET", "/a", [IsFunc 1; IsHttpFunc 7]); ("GET", "/a", [IsFunc 2]);
         ("GET", "/b", [IsFunc 3])] zero = (Return tt, site) /\
  exists msg,
    setup [("GET", "/a", [IsFunc 1]); ("GET", "/b", []); ("GET", "/c", [IsFunc 3])] zero =
    (Panic msg, {| routes := [newRoute "GET" "/a" [HandlerFunc 1]] |}).
Proof.
  split.
  - apply (setup_registers_in_order
             [("GET", "/a", [IsFunc 1; IsHttpFunc 7]); ("GET", "/a", [IsFunc 2]);
              ("GET", "/b", [IsFunc 3])] zero).
    repeat constructor; discriminate.
  - apply (proj2 (setup_registers_in_order
             [("GET", "/a", [IsFunc 1]); ("GET", "/b", []); ("GET", "/c", [IsFunc 3])] zero)
             [("GET", "/a", [IsFunc 1])] ("GET", "/b", []) [("GET", "/c", [IsFunc 3])]).
    + reflexivity.
    + repeat constructor; discriminate.
    + intros [Hne _]. now apply Hne.
Defined.

(** ** Dispatches that serve nothing *)

(** X6. A dispatch on a Mux none of whose routes matches the request, a
    Mux without routes among them, returns normally: each route has been
    examined once, in the order of registration, no handler has been
    invoked and nothing has been written.  The caller is not told that
    nothing matched. *)
Theorem ServeRoboHTTP_no_match
    (matcher : route -> string -> string -> bool * option Parameters)
    (invoke : Handler -> ResponseWriter -> Request -> M State unit)
    (m : Mux) (w : ResponseWriter) (r : Request) (st : State) :
  Forall (fun x => fst (matcher x (Method (embedded r)) (URL_Path (embedded r))) = false)
         (routes m) ->
  ServeRoboHTTP matcher invoke m w r st =
  (Return tt,
   {| heap := heap st ++ [{| q_handlers := []; q_routes := [];
                             q_parent := Params r; q_self := None |}];
      invoked := invoked st;
      examined := examined st ++
        map (fun x => (x, Method (embedded r), URL_Path (embedded r))) (routes m);
      written := written st |}).
Proof.
  intros Hall. rewrite ServeRoboHTTP_alloc.
  erewrite serveNext_scan; [| simpl; now apply list_lookup_middle | reflexivity].
  erewrite scan_no_match;
    [| simpl; now apply list_lookup_middle | reflexivity | exact Hall].
  simpl. rewrite insert_app_r_alt by lia. rewrite Nat.sub_diag. reflexivity.
Qed.

Lemma ServeRoboHTTP_no_match_witness :
  outcome (ServeRoboHTTP literal (run literal sample 9) site 5
             {| embedded := GET "/nowhere"; Params := None; queue_of := None |}
             initial) = Return tt /\
  invoked (final (ServeRoboHTTP literal (run literal sample 9) site 5
             {| embedded := GET "/nowhere"; Params := None; queue_of := None |}
             initial)) = [].
Proof.
  rewrite (ServeRoboHTTP_no_match literal (run literal sample 9) site 5
             {| embedded := GET "/nowhere"; Params := None; queue_of := None |}
             initial).
  - split; reflexivity.
  - repeat constructor.
Defined.

(** X7. With the matcher as it stands in the source, serving a request
    never reaches a handler: for every program, Mux and request the
    dispatch returns normally, having examined every route, with no
    handler invoked and nothing written, however little fuel there is. *)
Theorem serve_with_Check_reaches_no_handler
    (prog : Program) (fuel : nat) (m : Mux) (w : ResponseWriter)
    (hr : http_Request) (st : State) :
  outcome (serve Check prog fuel m w hr st) = Return tt /\
  invoked (final (serve Check prog fuel m w hr st)) = invoked st /\
  written (final (serve Check prog fuel m w hr st)) = written st /\
  examined (final (serve Check prog fuel m w hr st)) =
    examined st ++ map (fun x => (x, Method hr, URL_Path hr)) (routes m).
Proof.
  unfold serve. rewrite ServeHTTP_Check_invokes_nothing. repeat split.
Qed.

(** ** A match that cannot be served *)

Section MatchFailures.

Variable matcher : route -> string -> string -> bool * option Parameters.
Variable invoke : Handler -> ResponseWriter -> Request -> M State unit.

Lemma scan_match_nil (r : route) (post : list route) (q : qref) (c : queue)
    (w : ResponseWriter) (hr : http_Request) (st : State)
    (h0 : Handler) (tail : list Handler) :
  heap st !! q = Some c ->
  matcher r (Method hr) (URL_Path hr) = (true, None) ->
  handlers r = h0 :: tail ->
  scan matcher invoke (r :: post) q w hr st =
  (Panic nil_dereference,
   {| heap := <[q := {| q_handlers := tail; q_routes := post;
                        q_parent := q_parent c; q_self := None |}]> (heap st);
      invoked := invoked st;
      examined := examined st ++ [(r, Method hr, URL_Path hr)];
      written := written st |}).
Proof.
  intros H Hm Hh. simpl.
  rewrite (bind_Return _ _ _ _ _ (set_routes_Some _ _ post _ H)).
  rewrite Hm, Hh. simpl negb. cbv iota.
  unfold log_examined. rewrite bind_modify.
  erewrite bind_Return; [| eapply set_handlers_Some, lookup_stored, H ].
  erewrite bind_Return; [| eapply set_self_Some, lookup_stored, lookup_stored, H ].
  unfold mbind at 1, M_bind.
  erewrite set_self_parent_nil;
    [| eapply lookup_stored, lookup_stored, lookup_stored, H | reflexivity ].
  simpl. rewrite !list_insert_insert_eq. reflexivity.
Qed.

Lemma scan_match_hollow (r : route) (post : list route) (q : qref) (c : queue)
    (w : ResponseWriter) (hr : http_Request) (st : State) (params : option Parameters) :
  heap st !! q = Some c ->
  matcher r (Method hr) (URL_Path hr) = (true, params) ->
  handlers r = [] ->
  scan matcher invoke (r :: post) q w hr st =
  (Panic out_of_range,
   {| heap := <[q := {| q_handlers := q_handlers c; q_routes := post;
                        q_parent := q_parent c; q_self := q_self c |}]> (heap st);
      invoked := invoked st;
      examined := examined st ++ [(r, Method hr, URL_Path hr)];
      written := written st |}).
Proof.
  intros H Hm Hh. simpl.
  rewrite (bind_Return _ _ _ _ _ (set_routes_Some _ _ post _ H)).
  rewrite Hm, Hh. reflexivity.
Qed.

(** The loop through routes that do not match, up to any rest. *)
Lemma scan_skip_all (pre rest : list route) (q : qref) (c : queue)
    (w : ResponseWriter) (hr : http_Request) (st : State) :
  heap st !! q = Some c -> pre <> [] ->
  Forall (fun x => fst (matcher x (Method hr) (URL_Path hr)) = false) pre ->
  scan matcher invoke (pre ++ rest) q w hr st =
  scan matcher invoke rest q w hr
    {| heap := <[q := {| q_handlers := q_handlers c; q_routes := rest;
                         q_parent := q_parent c; q_self := q_self c |}]> (heap st);
       invoked := invoked st;
       examined := examined st ++ map (fun x => (x, Method hr, URL_Path hr)) pre;
       written := written st |}.
Proof.
  intros H Hne Hall. revert c st H.
  induction pre as [| x pre IH]; [congruence |]. intros c st H.
  inversion Hall as [| ? ? Hx Hrest]; subst.
  rewrite <- app_comm_cons, (scan_skip matcher invoke x _ q c w hr st H Hx).
  destruct pre as [| y pre'].
  - reflexivity.
  - erewrite (IH ltac:(discriminate) Hrest); [| eapply lookup_stored, H ].
    simpl. rewrite list_insert_insert_eq, <- app_assoc. reflexivity.
Qed.

(** X8. The doc comment of [Check] promises a scope whenever it reports a
    match, and [serveNext] relies on it: at a first matching route for
    which the matcher returns no scope, [serveNext] panics with a nil
    dereference before any handler runs.  Nothing is rolled back: the
    routes up to the matched one are gone from the queue, the matched
    route's remaining handlers are installed, and the current scope is
    nil. *)
Theorem serveNext_match_without_scope (q : qref) (c : queue)
    (pre : list route) (r : route) (post : list route)
    (h0 : Handler) (tail : list Handler)
    (w : ResponseWriter) (hr : http_Request) (st : State) :
  heap st !! q = Some c ->
  q_handlers c = [] ->
  q_routes c = pre ++ r :: post ->
  Forall (fun x => fst (matcher x (Method hr) (URL_Path hr)) = false) pre ->
  matcher r (Method hr) (URL_Path hr) = (true, None) ->
  handlers r = h0 :: tail ->
  serveNext matcher invoke q w hr st =
  (Panic nil_dereference,
   {| heap := <[q := {| q_handlers := tail; q_routes := post;
                        q_parent := q_parent c; q_self := None |}]> (heap st);
      invoked := invoked st;
      examined := examined st ++
        map (fun x => (x, Method hr, URL_Path hr)) (pre ++ [r]);
      written := written st |}).
Proof.
  intros H Hh Hrs Hpre Hm Hr.
  rewrite (serveNext_scan matcher invoke q c w hr st H Hh), Hrs.
  destruct pre as [| x pre'].
  - simpl app. now apply (scan_match_nil r post q c w hr st h0 tail).
  - rewrite (scan_skip_all (x :: pre') (r :: post) q c w hr st H ltac:(discriminate) Hpre).
    erewrite (scan_match_nil r post q _ w hr _ h0 tail);
      [| eapply lookup_stored, H | exact Hm | exact Hr ].
    simpl. rewrite list_insert_insert_eq, map_app, <- !app_assoc. reflexivity.
Qed.

End MatchFailures.

Lemma serveNext_match_without_scope_witness :
  serveNext careless writer 0 5 (GET "/a") at_start =
  (Panic nil_dereference,
   {| heap := [{| q_handlers := [httpHandler (http_HandlerFunc 7)];
                  q_routes := [newRoute "GET" "/a" [HandlerFunc 2];
                               newRoute "GET" "/b" [HandlerFunc 3]];
                  q_parent := Some outer_scope; q_self := None |}];
      invoked := [];
      examined := [(newRoute "GET" "/a" [HandlerFunc 1; httpHandler (http_HandlerFunc 7)],
                    "GET", "/a")];
      written := [] |}).
Proof.
  apply (serveNext_match_without_scope careless writer 0
           (mkQueue [] (routes site) (Some outer_scope) None)
           [] (newRoute "GET" "/a" [HandlerFunc 1; httpHandler (http_HandlerFunc 7)])
           [newRoute "GET" "/a" [HandlerFunc 2]; newRoute "GET" "/b" [HandlerFunc 3]]
           (HandlerFunc 1) [httpHandler (http_HandlerFunc 7)] 5 (GET "/a") at_start);
    try reflexivity.
  constructor.
Defined.


(** ** Handlers run in the order of registration *)

Lemma calls_on_app (q : qref) (l1 l2 : list (Handler * ResponseWriter * Request)) :
  calls_on q (l1 ++ l2) = calls_on q l1 ++ calls_on q l2.
Proof. unfold calls_on. now rewrite filter_app, map_app. Qed.

Lemma calls_on_same (q : qref) (h : Handler) (w : ResponseWriter)
    (hr : http_Request) (p : option Parameters) :
  calls_on q [(h, w, {| embedded := hr; Params := p; queue_of := Some q |})] = [h].
Proof.
  unfold calls_on. rewrite filter_cons_True by reflexivity. reflexivity.
Qed.

Lemma calls_on_other (q q' : qref) (h : Handler) (w : ResponseWriter)
    (hr : http_Request) (p : option Parameters) :
  q' <> q ->
  calls_on q' [(h, w, {| embedded := hr; Params := p; queue_of := Some q |})] = [].
Proof.
  intros Hne. unfold calls_on. rewrite filter_cons_False; [reflexivity |].
  simpl. congruence.
Qed.

Lemma advances_refl (s : State) : advances s s.
Proof.
  exists []. split; [now rewrite app_nil_r |].
  intros q c H. exists c. split; [exact H | reflexivity].
Qed.

Lemma advances_trans (s1 s2 s3 : State) :
  advances s1 s2 -> advances s2 s3 -> advances s1 s3.
Proof.
  intros [l1 [E1 H1]] [l2 [E2 H2]]. exists (l1 ++ l2).
  split; [now rewrite E2, E1, app_assoc |].
  intros q c H. destruct (H1 q c H) as [c2 [Hc2 S2]].
  destruct (H2 q c2 Hc2) as [c3 [Hc3 S3]].
  exists c3. split; [exact Hc3 |].
  rewrite calls_on_app, <- app_assoc.
  etransitivity; [| exact S2].
  apply sublist_app; [reflexivity | exact S3].
Qed.

(** One queue is rewritten and calls on it are logged. *)
Lemma advances_update (q : qref) (c c1 : queue)
    (l : list (Handler * ResponseWriter * Request)) (s s' : State) :
  heap s !! q = Some c ->
  heap s' = <[q := c1]> (heap s) ->
  invoked s' = invoked s ++ l ->
  (forall q', q' <> q -> calls_on q' l = []) ->
  sublist (calls_on q l ++ pending c1) (pending c) ->
  advances s s'.
Proof.
  intros H Hheap Hinv Hother Hsub. exists l. split; [exact Hinv |].
  intros q' c' H'. rewrite Hheap.
  destruct (decide (q' = q)) as [-> | Hne].
  - exists c1. split; [now apply (lookup_stored q c) |].
    rewrite H in H'. now injection H' as <-.
  - exists c'. split; [now rewrite list_lookup_insert_ne by congruence |].
    now rewrite Hother.
Qed.

Lemma advances_quiet (s s' : State) :
  heap s' = heap s -> invoked s' = invoked s -> advances s s'.
Proof.
  intros Hheap Hinv. exists []. split; [now rewrite app_nil_r |].
  intros q c H. exists c. split; [now rewrite Hheap | reflexivity].
Qed.

Lemma advances_alloc (c : queue) (s s' : State) :
  heap s' = heap s ++ [c] -> invoked s' = invoked s -> advances s s'.
Proof.
  intros Hheap Hinv. exists []. split; [now rewrite app_nil_r |].
  intros q c0 H. exists c0. split; [| reflexivity].
  rewrite Hheap. now apply lookup_app_l_Some.
Qed.

Lemma steady_bind {A B : Type} (c : M State A) (f : A -> M State B) :
  steady c -> (forall a, steady (f a)) -> steady (c ≫= f).
Proof.
  intros Hc Hf s. specialize (Hc s). unfold mbind, M_bind.
  destruct (c s) as [[a | msg |] s1]; simpl in *; [| exact Hc | exact Hc].
  eapply advances_trans; [exact Hc | apply Hf].
Qed.

Lemma steady_log_written (w : ResponseWriter) (data : string) :
  steady (log_written w data).
Proof. intros s. now apply advances_quiet. Qed.

Section Order.

Variable matcher : route -> string -> string -> bool * option Parameters.

Section OrderStep.

Variable invoke : Handler -> ResponseWriter -> Request -> M State unit.
Hypothesis invoke_steady : forall h w r, steady (invoke h w r).

Lemma scan_advances (rs : list route) (q : qref) (c : queue)
    (w : ResponseWriter) (hr : http_Request) (st : State) :
  heap st !! q = Some c -> q_routes c = rs ->
  advances st (final (scan matcher invoke rs q w hr st)).
Proof.
  revert c st. induction rs as [| r rest IH]; intros c st H Hrs.
  - apply advances_refl.
  - assert (forall hs e,
      sublist (hs ++ concat (map handlers rest))
              (q_handlers c ++ handlers r ++ concat (map handlers rest)) ->
      advances st
        {| heap := <[q := {| q_handlers := hs; q_routes := rest;
                             q_parent := q_parent c; q_self := e |}]> (heap st);
           invoked := invoked st;
           examined := examined st ++ [(r, Method hr, URL_Path hr)];
           written := written st |}) as Hquiet.
    { intros hs e Hsub.
      eapply advances_update with (q := q) (c := c) (l := []);
        [exact H | reflexivity | simpl; now rewrite app_nil_r | reflexivity |].
      unfold pending. rewrite Hrs. simpl. exact Hsub. }
    destruct (matcher r (Method hr) (URL_Path hr)) as [[|] params] eqn:Hm.
    + destruct (handlers r) as [| h0 tail] eqn:Hh.
      * rewrite (scan_match_hollow matcher invoke r rest q c w hr st params H Hm Hh).
        simpl. apply Hquiet. try rewrite Hh. reflexivity.
      * destruct params as [p |].
        -- rewrite (scan_match matcher invoke r rest q c w hr st p h0 tail H Hm Hh).
           eapply advances_trans; [| apply invoke_steady].
           eapply advances_update with (q := q) (c := c);
             [exact H | reflexivity | reflexivity | |].
           ++ intros q' Hne. now apply calls_on_other.
           ++ rewrite calls_on_same. unfold pending. rewrite Hrs. simpl.
              try rewrite Hh. now apply sublist_inserts_l.
        -- rewrite (scan_match_nil matcher invoke r rest q c w hr st h0 tail H Hm Hh).
           simpl. apply Hquiet. try rewrite Hh.
           apply sublist_inserts_l. simpl. now apply sublist_cons.
    + rewrite (scan_skip matcher invoke r rest q c w hr st H); [| now rewrite Hm].
      eapply advances_trans; [| eapply IH; [eapply lookup_stored, H | reflexivity]].
      apply Hquiet. apply sublist_app; [reflexivity |]. now apply sublist_inserts_l.
Qed.

Lemma serveNext_advances (q : qref) (w : ResponseWriter) (hr : http_Request) :
  steady (serveNext matcher invoke q w hr).
Proof.
  intros st. destruct (heap st !! q) as [c |] eqn:H.
  - destruct (q_handlers c) as [| h rest] eqn:Hh.
    + rewrite (serveNext_scan matcher invoke q c w hr st H Hh).
      now apply (scan_advances _ q c).
    + rewrite (serveNext_pop matcher invoke q c h rest w hr st H Hh).
      eapply advances_trans; [| apply invoke_steady].
      eapply advances_update with (q := q) (c := c);
        [exact H | reflexivity | reflexivity | |].
      * intros q' Hne. now apply calls_on_other.
      * rewrite calls_on_same. unfold pending. simpl. now rewrite Hh.
  - unfold serveNext, mbind, M_bind, load. rewrite H. apply advances_refl.
Qed.

Lemma Next_advances (r : Request) (w : ResponseWriter) :
  steady (Next matcher invoke r w).
Proof.
  unfold Next. destruct (queue_of r).
  - apply serveNext_advances.
  - intros s. apply advances_refl.
Qed.

Lemma ServeRoboHTTP_advances (m : Mux) (w : ResponseWriter) (r : Request) :
  steady (ServeRoboHTTP matcher invoke m w r).
Proof.
  intros st. rewrite ServeRoboHTTP_alloc.
  eapply advances_trans; [| apply serveNext_advances].
  now eapply advances_alloc.
Qed.

End OrderStep.

Variable prog : Program.

Lemma script_advances (next : Request -> ResponseWriter -> M State unit)
    (acts : list Action) (w : ResponseWriter) (r : Request) :
  (forall r w, steady (next r w)) -> steady (script next acts w r).
Proof.
  intros Hnext. induction acts as [| [data | key |] rest IH]; simpl.
  - intros s. apply advances_refl.
  - apply steady_bind; [apply steady_log_written | intros _; exact IH].
  - destruct (Params r); [| intros s; apply advances_refl].
    apply steady_bind; [apply steady_log_written | intros _; exact IH].
  - apply steady_bind; [apply Hnext | intros _; exact IH].
Qed.

Lemma http_script_advances (chunks : list string) (w : ResponseWriter) :
  steady (http_script chunks w).
Proof.
  induction chunks as [| data rest IH]; simpl.
  - intros s. apply advances_refl.
  - apply steady_bind; [apply steady_log_written | intros _; exact IH].
Qed.

Lemma run_advances (fuel : nat) (h : Handler) (w : ResponseWriter) (r : Request) :
  steady (run matcher prog fuel h w r).
Proof.
  revert h w r. induction fuel as [| n IH]; intros h w r.
  - intros s. apply advances_refl.
  - assert (forall o, steady
              match robo_code prog o with
              | Script acts => script (Next matcher (run matcher prog n)) acts w r
              | Nested m => ServeRoboHTTP matcher (run matcher prog n) m w r
              end) as Hcode.
    { intros o. destruct (robo_code prog o) as [acts | m].
      - apply script_advances. intros r' w'. now apply Next_advances.
      - now apply ServeRoboHTTP_advances. }
    destruct h as [o | f | [o | f]]; simpl;
      [apply Hcode | apply Hcode | apply http_script_advances ..].
Qed.

(** X9. In one dispatch, the handlers invoked with a request bound to the
    queue of the dispatch are, in the order of their calls, taken in
    order from the handlers of the routes of the Mux in the order of
    registration.  So no handler runs ahead of one registered before it
    that also runs, a handler registered once runs at most once, and no
    handler runs that the Mux does not hold.  This holds for every
    matcher, every program and any fuel, however often handlers yield. *)
Theorem dispatch_in_registration_order (fuel : nat) (m : Mux)
    (w : ResponseWriter) (r : Request) (st : State) :
  exists l,
    invoked (final (ServeRoboHTTP matcher (run matcher prog fuel) m w r st)) =
      invoked st ++ l /\
    sublist (calls_on (length (heap st)) l) (concat (map handlers (routes m))).
Proof.
  rewrite ServeRoboHTTP_alloc.
  destruct (serveNext_advances (run matcher prog fuel) (run_advances fuel)
              (length (heap st)) w (embedded r)
              {| heap := heap st ++ [{| q_handlers := []; q_routes := routes m;
                                        q_parent := Params r; q_self := None |}];
                 invoked := invoked st; examined := examined st;
                 written := written st |}) as [l [El Hl]].
  exists l. split; [exact El |].
  destruct (Hl (length (heap st)) _ (list_lookup_middle _ _ _ _ eq_refl)) as [c' [_ Hsub]].
  etransitivity; [| exact Hsub].
  now apply sublist_inserts_r.
Qed.

End Order.

(** ** More fuel, same result *)

(** [invoke'] does what [invoke] does wherever [invoke] is not cut off. *)
Lemma bind_extends {A B : Type} (c c' : M State A) (f f' : A -> M State B) (s : State) :
  outcome ((c ≫= f) s) <> Timeout ->
  (outcome (c s) <> Timeout -> c' s = c s) ->
  (forall a s1, c s = (Return a, s1) -> outcome (f a s1) <> Timeout -> f' a s1 = f a s1) ->
  (c' ≫= f') s = (c ≫= f) s.
Proof.
  unfold mbind, M_bind. intros Hout Hc Hf.
  destruct (c s) as [[a | msg |] s1] eqn:E; simpl in *.
  - rewrite Hc by discriminate. now apply Hf.
  - now rewrite Hc by discriminate.
  - congruence.
Qed.

Section MoreFuel.

Variable matcher : route -> string -> string -> bool * option Parameters.

Section MoreFuelStep.

Variables invoke invoke' : Handler -> ResponseWriter -> Request -> M State unit.
Hypothesis invoke_extends :
  forall h w r s, outcome (invoke h w r s) <> Timeout -> invoke' h w r s = invoke h w r s.

Lemma call_extends (h : Handler) (q : qref) (w : ResponseWriter)
    (hr : http_Request) (s : State) :
  outcome (call invoke h q w hr s) <> Timeout ->
  call invoke' h q w hr s = call invoke h q w hr s.
Proof.
  intros Hout. unfold call in *.
  apply bind_extends; [exact Hout | reflexivity |].
  intros c s1 _ Hout1.
  apply bind_extends; [exact Hout1 | reflexivity |].
  intros _ s2 _. apply invoke_extends.
Qed.

Lemma scan_extends (rs : list route) (q : qref) (w : ResponseWriter)
    (hr : http_Request) (s : State) :
  outcome (scan matcher invoke rs q w hr s) <> Timeout ->
  scan matcher invoke' rs q w hr s = scan matcher invoke rs q w hr s.
Proof.
  revert s. induction rs as [| r rest IH]; intros s Hout; [reflexivity |].
  simpl in *.
  apply bind_extends; [exact Hout | reflexivity |]. intros _ s1 _ Hout1.
  apply bind_extends; [exact Hout1 | reflexivity |]. intros _ s2 _.
  destruct (matcher r (Method hr) (URL_Path hr)) as [[|] params]; simpl.
  - destruct (handlers r) as [| h0 tail]; [reflexivity |]. intros Hout2.
    apply bind_extends; [exact Hout2 | reflexivity |]. intros _ s3 _ Hout3.
    apply bind_extends; [exact Hout3 | reflexivity |]. intros _ s4 _ Hout4.
    apply bind_extends; [exact Hout4 | reflexivity |]. intros _ s5 _.
    apply call_extends.
  - apply IH.
Qed.

Lemma serveNext_extends (q : qref) (w : ResponseWriter) (hr : http_Request) (s : State) :
  outcome (serveNext matcher invoke q w hr s) <> Timeout ->
  serveNext matcher invoke' q w hr s = serveNext matcher invoke q w hr s.
Proof.
  intros Hout. unfold serveNext in *.
  apply bind_extends; [exact Hout | reflexivity |]. intros c s1 _.
  destruct (q_handlers c) as [| h rest].
  - apply scan_extends.
  - intros Hout1. apply bind_extends; [exact Hout1 | reflexivity |].
    intros _ s2 _. apply call_extends.
Qed.

Lemma Next_extends (r : Request) (w : ResponseWriter) (s : State) :
  outcome (Next matcher invoke r w s) <> Timeout ->
  Next matcher invoke' r w s = Next matcher invoke r w s.
Proof.
  unfold Next. destruct (queue_of r); [apply serveNext_extends | reflexivity].
Qed.

Lemma ServeRoboHTTP_extends (m : Mux) (w : ResponseWriter) (r : Request) (s : State) :
  outcome (ServeRoboHTTP matcher invoke m w r s) <> Timeout ->
  ServeRoboHTTP matcher invoke' m w r s = ServeRoboHTTP matcher invoke m w r s.
Proof. rewrite !ServeRoboHTTP_alloc. apply serveNext_extends. Qed.

End MoreFuelStep.

Variable prog : Program.

Lemma script_extends (next next' : Request -> ResponseWriter -> M State unit)
    (acts : list Action) (w : ResponseWriter) (r : Request) (s : State) :
  (forall r w s, outcome (next r w s) <> Timeout -> next' r w s = next r w s) ->
  outcome (script next acts w r s) <> Timeout ->
  script next' acts w r s = script next acts w r s.
Proof.
  intros Hnext. revert s. induction acts as [| [data | key |] rest IH]; intros s; simpl.
  - reflexivity.
  - intros Hout. apply bind_extends; [exact Hout | reflexivity |].
    intros _ s1 _. apply IH.
  - destruct (Params r); [| reflexivity].
    intros Hout. apply bind_extends; [exact Hout | reflexivity |].
    intros _ s1 _. apply IH.
  - intros Hout. apply bind_extends; [exact Hout | apply Hnext |].
    intros _ s1 _. apply IH.
Qed.

Lemma run_extends (fuel : nat) :
  forall fuel' h w r s,
    fuel <= fuel' ->
    outcome (run matcher prog fuel h w r s) <> Timeout ->
    run matcher prog fuel' h w r s = run matcher prog fuel h w r s.
Proof.
  induction fuel as [| n IH]; intros fuel' h w r s Hle Hout; [now simpl in Hout |].
  destruct fuel' as [| n']; [lia |].
  assert (forall h w r s,
            outcome (run matcher prog n h w r s) <> Timeout ->
            run matcher prog n' h w r s = run matcher prog n h w r s) as Hn.
  { intros. apply IH; [lia | assumption]. }
  destruct h as [o | o | h']; simpl in *; [| | reflexivity];
    (destruct (robo_code prog o) as [acts | m];
     [ apply script_extends; [| exact Hout];
       intros r' w' s'; now apply Next_extends
     | now apply ServeRoboHTTP_extends ]).
Qed.

End MoreFuel.

(** ** Dispatches end *)

Lemma advances_pending (s s' : State) (q : qref) (c : queue) :
  advances s s' -> heap s !! q = Some c ->
  exists c', heap s' !! q = Some c' /\ length (pending c') <= length (pending c).
Proof.
  intros [l [_ Hl]] H. destruct (Hl q c H) as [c' [Hc' Hsub]].
  exists c'. split; [exact Hc' |].
  apply sublist_length in Hsub. rewrite length_app in Hsub. lia.
Qed.

Lemma bind_no_Timeout {A B : Type} (c : M State A) (f : A -> M State B) (s : State) :
  outcome (c s) <> Timeout ->
  (forall a s1, c s = (Return a, s1) -> outcome (f a s1) <> Timeout) ->
  outcome ((c ≫= f) s) <> Timeout.
Proof.
  intros Hc Hf. unfold mbind, M_bind.
  destruct (c s) as [[a | msg |] s1]; simpl in *; [now apply Hf | discriminate | congruence].
Qed.

Section Ends.

Variable matcher : route -> string -> string -> bool * option Parameters.

Section EndsStep.

Variable invoke : Handler -> ResponseWriter -> Request -> M State unit.
Variable q : qref.
Variable bound : nat.

(** The handlers end when they are invoked on a request bound to [q] in
    a state where [q] can invoke fewer than [bound] handlers. *)
Hypothesis invoke_ends :
  forall h w hr p s c1,
    heap s !! q = Some c1 -> S (length (pending c1)) <= bound ->
    outcome (invoke h w {| embedded := hr; Params := p; queue_of := Some q |} s)
    <> Timeout.

Lemma scan_ends (rs : list route) (c : queue)
    (w : ResponseWriter) (hr : http_Request) (st : State) :
  heap st !! q = Some c -> q_routes c = rs ->
  length (concat (map handlers rs)) <= bound ->
  outcome (scan matcher invoke rs q w hr st) <> Timeout.
Proof.
  revert c st. induction rs as [| r rest IH]; intros c st H Hrs Hlen; [discriminate |].
  simpl in Hlen. rewrite length_app in Hlen.
  destruct (matcher r (Method hr) (URL_Path hr)) as [[|] params] eqn:Hm.
  - destruct (handlers r) as [| h0 tail] eqn:Hh.
    + rewrite (scan_match_hollow matcher invoke r rest q c w hr st params H Hm Hh).
      discriminate.
    + destruct params as [p |].
      * rewrite (scan_match matcher invoke r rest q c w hr st p h0 tail H Hm Hh).
        eapply invoke_ends; [simpl; eapply lookup_stored, H |].
        unfold pending. simpl. rewrite length_app. simpl in Hlen. lia.
      * rewrite (scan_match_nil matcher invoke r rest q c w hr st h0 tail H Hm Hh).
        discriminate.
  - rewrite (scan_skip matcher invoke r rest q c w hr st H); [| now rewrite Hm].
    eapply IH; [simpl; eapply lookup_stored, H | reflexivity | lia].
Qed.

Lemma serveNext_ends (c : queue) (w : ResponseWriter) (hr : http_Request) (st : State) :
  heap st !! q = Some c -> length (pending c) <= bound ->
  outcome (serveNext matcher invoke q w hr st) <> Timeout.
Proof.
  intros H Hlen. unfold pending in Hlen. rewrite length_app in Hlen.
  destruct (q_handlers c) as [| h rest] eqn:Hh.
  - rewrite (serveNext_scan matcher invoke q c w hr st H Hh).
    apply (scan_ends _ c); [exact H | reflexivity | simpl in Hlen; lia].
  - rewrite (serveNext_pop matcher invoke q c h rest w hr st H Hh).
    eapply invoke_ends; [simpl; eapply lookup_stored, H |].
    unfold pending. simpl. rewrite length_app. simpl in Hlen. lia.
Qed.

End EndsStep.

Variable prog : Program.
Hypothesis prog_flat : flat prog.

Lemma script_ends (next : Request -> ResponseWriter -> M State unit)
    (acts : list Action) (w : ResponseWriter) (r : Request) (s0 : State) :
  (forall s, steady (next r w) /\ (advances s0 s -> outcome (next r w s) <> Timeout)) ->
  forall s, advances s0 s -> outcome (script next acts w r s) <> Timeout.
Proof.
  intros Hnext. induction acts as [| [data | key |] rest IH]; intros s Hs; simpl.
  - discriminate.
  - apply bind_no_Timeout; [discriminate |].
    intros [] s1 E. apply IH. eapply advances_trans; [exact Hs |].
    replace s1 with (final (log_written w data s)) by now rewrite E.
    apply steady_log_written.
  - destruct (Params r); [| discriminate].
    apply bind_no_Timeout; [discriminate |].
    intros [] s1 E. apply IH. eapply advances_trans; [exact Hs |].
    replace s1 with (final (log_written w (Get p key) s)) by now rewrite E.
    apply steady_log_written.
  - destruct (Hnext s) as [Hsteady Hend].
    apply bind_no_Timeout; [now apply Hend |].
    intros [] s1 E. apply IH. eapply advances_trans; [exact Hs |].
    replace s1 with (final (next r w s)) by now rewrite E.
    apply Hsteady.
Qed.

Lemma http_script_ends (chunks : list string) (w : ResponseWriter) (s : State) :
  outcome (http_script chunks w s) <> Timeout.
Proof.
  revert s. induction chunks as [| data rest IH]; intros s; simpl; [discriminate |].
  apply bind_no_Timeout; [discriminate |]. intros _ s1 _. apply IH.
Qed.

(** With fuel for every handler a queue can still invoke, a step of the
    queue ends. *)
Lemma serveNext_run_ends (n : nat) :
  forall fuel q c w hr st,
    n <= fuel -> heap st !! q = Some c -> length (pending c) <= n ->
    outcome (serveNext matcher (run matcher prog fuel) q w hr st) <> Timeout.
Proof.
  induction n as [| n IH]; intros fuel q c w hr st Hfuel H Hlen.
  - apply (serveNext_ends (run matcher prog fuel) q 0) with (c := c); [| exact H | exact Hlen].
    intros; lia.
  - apply (serveNext_ends (run matcher prog fuel) q (S n)) with (c := c);
      [| exact H | exact Hlen].
    intros h w' hr' p s c1 Hc1 Hsmall.
    destruct fuel as [| f]; [lia |].
    assert (forall o, outcome
              (match robo_code prog o with
               | Script acts =>
                   script (Next matcher (run matcher prog f)) acts w'
                     {| embedded := hr'; Params := p; queue_of := Some q |}
               | Nested m =>
                   ServeRoboHTTP matcher (run matcher prog f) m w'
                     {| embedded := hr'; Params := p; queue_of := Some q |}
               end s) <> Timeout) as Hcode.
    { intros o. destruct (prog_flat o) as [acts ->].
      apply (script_ends _ acts w' _ s); [| apply advances_refl].
      intros s'. split; [apply Next_advances, run_advances |].
      intros Hs'. destruct (advances_pending s s' q c1 Hs' Hc1) as [c' [Hc' Hle]].
      simpl. apply (IH f q c' w' hr' s'); [lia | exact Hc' | lia]. }
    destruct h as [o | o | h']; simpl; [apply Hcode | apply Hcode |].
    destruct h'; apply http_script_ends.
Qed.

(** X10. A dispatch ends.  In a program without nested Muxes, serving a
    request with at least as much fuel as the Mux has handlers is never
    cut off: it returns or it panics, whatever the matcher answers and
    however often the handlers yield, because every step of the queue
    uses up a handler or a route.  More fuel than that changes nothing:
    the dispatch ends in the same way and in the same state. *)
Theorem ServeRoboHTTP_ends (fuel : nat) (m : Mux) (w : ResponseWriter)
    (r : Request) (st : State) :
  length (concat (map handlers (routes m))) <= fuel ->
  outcome (ServeRoboHTTP matcher (run matcher prog fuel) m w r st) <> Timeout /\
  forall fuel', fuel <= fuel' ->
    ServeRoboHTTP matcher (run matcher prog fuel') m w r st =
    ServeRoboHTTP matcher (run matcher prog fuel) m w r st.
Proof.
  intros Hfuel.
  assert (outcome (ServeRoboHTTP matcher (run matcher prog fuel) m w r st) <> Timeout)
    as Hout.
  { rewrite ServeRoboHTTP_alloc.
    eapply (serveNext_run_ends (length (concat (map handlers (routes m))))).
    - exact Hfuel.
    - simpl. now apply list_lookup_middle.
    - reflexivity. }
  split; [exact Hout |].
  intros fuel' Hle. apply ServeRoboHTTP_extends; [| exact Hout].
  intros h w' r' s Hs. now apply run_extends.
Qed.

End Ends.

Lemma plain_flat : flat plain.
Proof.
  intros o. unfold plain. simpl.
  do 5 (destruct o as [| o]; [eexists; reflexivity |]).
  eexists; reflexivity.
Qed.

Lemma ServeRoboHTTP_ends_witness :
  outcome (ServeRoboHTTP literal (run literal plain 4) site 5
             {| embedded := GET "/a"; Params := None; queue_of := None |} initial)
  <> Timeout /\
  ServeRoboHTTP literal (run literal plain 9) site 5
    {| embedded := GET "/a"; Params := None; queue_of := None |} initial =
  ServeRoboHTTP literal (run literal plain 4) site 5
    {| embedded := GET "/a"; Params := None; queue_of := None |} initial.
Proof.
  destruct (ServeRoboHTTP_ends literal plain plain_flat 4 site 5
              {| embedded := GET "/a"; Params := None; queue_of := None |} initial)
    as [Hout Hsame].
  - vm_compute. lia.
  - split; [exact Hout | apply Hsame; lia].
Defined.


(** ** Handlers of the [net/http] shapes *)

Lemma http_script_writes (chunks : list string) (w : ResponseWriter) (s : State) :
  http_script chunks w s =
  (Return tt,
   {| heap := heap s; invoked := invoked s; examined := examined s;
      written := written s ++ map (fun data => (w, data)) chunks |}).
Proof.
  revert s. induction chunks as [| data rest IH]; intros s; simpl.
  - rewrite app_nil_r. now destruct s.
  - unfold log_written. rewrite bind_modify, IH. simpl.
    now rewrite <- app_assoc.
Qed.

(** X11. A handler that was registered in one of the [net/http] shapes
    gets the embedded request only, so it cannot yield: when it is at
    the front of a queue, the step returns after the handler's writes
    with the rest of the route's handlers and the remaining routes still
    in the queue, none of them invoked. *)
Theorem httpHandler_does_not_yield
    (matcher : route -> string -> string -> bool * option Parameters)
    (prog : Program) (fuel : nat) (q : qref) (c : queue) (h : http_Handler)
    (rest : list Handler) (w : ResponseWriter) (hr : http_Request) (st : State) :
  heap st !! q = Some c ->
  q_handlers c = httpHandler h :: rest ->
  serveNext matcher (run matcher prog (S fuel)) q w hr st =
  (Return tt,
   {| heap := <[q := {| q_handlers := rest; q_routes := q_routes c;
                        q_parent := q_parent c; q_self := q_self c |}]> (heap st);
      invoked := invoked st ++
        [(httpHandler h, w,
          {| embedded := hr; Params := q_self c; queue_of := Some q |})];
      examined := examined st;
      written := written st ++ map (fun data => (w, data)) (http_chunks prog h) |}).
Proof.
  intros H Hh.
  rewrite (serveNext_pop matcher _ q c (httpHandler h) rest w hr st H Hh).
  simpl. destruct h; simpl; now rewrite http_script_writes.
Qed.

Lemma httpHandler_does_not_yield_witness :
  serveNext literal (run literal sample 1) 0 5 (GET "/a")
    {| heap := [{| q_handlers := [httpHandler (http_HandlerFunc 7); HandlerFunc 3];
                   q_routes := routes site; q_parent := None; q_self := None |}];
       invoked := []; examined := []; written := [] |} =
  (Return tt,
   {| heap := [{| q_handlers := [HandlerFunc 3];
                  q_routes := routes site; q_parent := None; q_self := None |}];
      invoked := [(httpHandler (http_HandlerFunc 7), 5,
                   {| embedded := GET "/a"; Params := None; queue_of := Some 0 |})];
      examined := [];
      written := [(5, "plain")] |}).
Proof.
  apply (httpHandler_does_not_yield literal sample 0 0
           (mkQueue [httpHandler (http_HandlerFunc 7); HandlerFunc 3] (routes site) None None)
           (http_HandlerFunc 7) [HandlerFunc 3] 5 (GET "/a")); reflexivity.
Defined.

(** ** Scopes across nested dispatches *)

(** X12. A dispatch entered with a request that carries a scope, as a
    Mux registered as a handler of another Mux is: at the first route
    that matches, the first handler of the route is invoked on the new
    queue with a scope that has the bindings the matcher returned and
    the incoming scope as parent.  A lookup in it gives the binding of
    the inner match when that is not empty, and what the incoming scope
    gives otherwise: outer parameters stay readable and inner ones
    shadow them. *)
Theorem ServeRoboHTTP_chains_scopes
    (matcher : route -> string -> string -> bool * option Parameters)
    (invoke : Handler -> ResponseWriter -> Request -> M State unit)
    (m : Mux) (pre : list route) (r : route) (post : list route)
    (p : Parameters) (h0 : Handler) (tail : list Handler)
    (w : ResponseWriter) (rq : Request) (st : State) :
  routes m = pre ++ r :: post ->
  Forall (fun x => fst (matcher x (Method (embedded rq)) (URL_Path (embedded rq))) = false)
         pre ->
  matcher r (Method (embedded rq)) (URL_Path (embedded rq)) = (true, Some p) ->
  handlers r = h0 :: tail ->
  ServeRoboHTTP matcher invoke m w rq st =
  invoke h0 w
    {| embedded := embedded rq;
       Params := Some (mkParameters (Params rq) (values p));
       queue_of := Some (length (heap st)) |}
    {| heap := heap st ++
         [{| q_handlers := tail; q_routes := post; q_parent := Params rq;
             q_self := Some (mkParameters (Params rq) (values p)) |}];
       invoked := invoked st ++
         [(h0, w, {| embedded := embedded rq;
                     Params := Some (mkParameters (Params rq) (values p));
                     queue_of := Some (length (heap st)) |})];
       examined := examined st ++
         map (fun x => (x, Method (embedded rq), URL_Path (embedded rq))) (pre ++ [r]);
       written := written st |} /\
  forall key,
    Get (mkParameters (Params rq) (values p)) key =
    if decide (own p key = "")
    then match Params rq with
         | Some outer => Get outer key
         | None => ""
         end
    else own p key.
Proof.
  intros Hrs Hpre Hm Hh. split.
  - rewrite ServeRoboHTTP_alloc.
    erewrite serveNext_scan; [| simpl; now apply list_lookup_middle | reflexivity].
    simpl q_routes. rewrite Hrs.
    erewrite scan_first_match;
      [| simpl; now apply list_lookup_middle | exact Hpre | exact Hm | exact Hh].
    simpl. rewrite insert_app_r_alt by lia. rewrite Nat.sub_diag. reflexivity.
  - intros key. rewrite Get_unfold. reflexivity.
Qed.

Lemma ServeRoboHTTP_chains_scopes_witness :
  written (final (ServeRoboHTTP literal (run literal sample 3) inner_site 5
                    {| embedded := GET "/a";
                       Params := Some outer_scope; queue_of := None |} initial)) =
  [(5, "/a")] /\
  Get (mkParameters (Some outer_scope) (Some (<["path" := "/a"]> ∅))) "lang" = "en".
Proof.
  destruct (ServeRoboHTTP_chains_scopes literal (run literal sample 3) inner_site
              [] (newRoute "GET" "/a" [HandlerFunc 2]) []
              (set "path" "/a" (mkParameters None None)) (HandlerFunc 2) [] 5
              {| embedded := GET "/a"; Params := Some outer_scope; queue_of := None |}
              initial eq_refl (Forall_nil_2 _) eq_refl eq_refl) as [E G].
  split.
  - rewrite E. vm_compute. reflexivity.
  - etransitivity; [apply (G "lang") | vm_compute; reflexivity].
Defined.
